(** * Hetbuilder geometry kernel: a shallow embedding of
      [backend/math_functions.cpp] and the properties of its functions.

    Conventions of the model.
    - [int] is modelled by [Z] and [double] by the real numbers [R]:
      arithmetic is exact, so rounding and signed overflow are outside the
      model.  The C++ remainder [b % a] truncates towards zero and is
      [Z.rem b a]; the one remainder of two [int]s that C++ leaves
      undefined, that of the least [int] by [-1], has its mathematical
      value [0].
    - [std::vector<T>] is [list T], [std::vector<std::vector<T>>] is
      [list (list T)].  [operator[]] outside the vector is undefined
      behaviour in C++; here every access is checked and yields the fault
      [OutOfBounds].  A division by a zero [double] yields the fault
      [DivisionByZero].
    - A template over the element type [T] is a definition over a type
      with a [Scalar] instance; the two instances are [Z] and [R], the
      element types the source instantiates. *)

From Stdlib Require Import ZArith Znumtheory Lia Reals Lra Ascii.
From stdpp Require Import base option list gmap.
From Equations Require Import Equations.

(** ** Outcomes of a kernel call *)

Inductive fault : Set :=
  | OutOfBounds
  | DivisionByZero
  | BadReference.

Inductive outcome (A : Type) : Type :=
  | Ret (a : A)
  | Fault (f : fault).
Arguments Ret {A} a.
Arguments Fault {A} f.

Definition outcome_bind {A B} (f : A → outcome B) (o : outcome A) : outcome B :=
  match o with
  | Ret a => f a
  | Fault e => Fault e
  end.

Definition outcome_map {A B} (f : A → B) (o : outcome A) : outcome B :=
  match o with
  | Ret a => Ret (f a)
  | Fault e => Fault e
  end.

#[global] Instance outcome_ret : MRet outcome := @Ret.
#[global] Instance outcome_mbind : MBind outcome := @outcome_bind.
#[global] Instance outcome_fmap : FMap outcome := @outcome_map.

(** ** Element types *)

(** The operations a template body uses on its element type, with the
    conversion to [double] and the laws that make the conversion exact. *)
Class Scalar (T : Type) := {
  s_zero : T;
  s_add : T → T → T;
  s_sub : T → T → T;
  s_mul : T → T → T;
  to_double : T → R;
  to_double_zero : to_double s_zero = 0%R;
  to_double_add x y : to_double (s_add x y) = (to_double x + to_double y)%R;
  to_double_sub x y : to_double (s_sub x y) = (to_double x - to_double y)%R;
  to_double_mul x y : to_double (s_mul x y) = (to_double x * to_double y)%R
}.

#[global, refine] Instance int_scalar : Scalar Z := {|
  s_zero := 0%Z; s_add := Z.add; s_sub := Z.sub; s_mul := Z.mul;
  to_double := IZR
|}.
Proof.
  - reflexivity.
  - exact plus_IZR.
  - exact minus_IZR.
  - exact mult_IZR.
Defined.

#[global, refine] Instance double_scalar : Scalar R := {|
  s_zero := 0%R; s_add := Rplus; s_sub := Rminus; s_mul := Rmult;
  to_double := λ x, x
|}.
Proof. all: reflexivity. Defined.

(** The implicit conversion of the second operand of a mixed product
    [T1 * T2] to [T1]; the source instantiates (int, int), (double, int)
    and (double, double). *)
Class Promote (T2 T1 : Type) := promote : T2 → T1.
#[global] Instance promote_same T : Promote T T := λ x, x.
#[global] Instance promote_int_double : Promote Z R := IZR.

(** ** Vector and matrix access *)

Definition vec_at {T} (v : list T) (i : nat) : outcome T :=
  match v !! i with
  | Some x => Ret x
  | None => Fault OutOfBounds
  end.

Definition mat_at {T} (m : list (list T)) (i j : nat) : outcome T :=
  row ← vec_at m i; vec_at row j.

Definition vec_set {T} (v : list T) (i : nat) (x : T) : outcome (list T) :=
  if (i <? length v)%nat then Ret (<[i:=x]> v) else Fault OutOfBounds.

Definition mat_set {T} (m : list (list T)) (i j : nat) (x : T)
  : outcome (list (list T)) :=
  row ← vec_at m i; row' ← vec_set row j x; vec_set m i row'.

(** [for (int i = lo; i < lo + count; i++) body], threading the variables
    the body assigns. *)
Fixpoint for_loop {St} (count i : nat) (body : nat → St → outcome St) (s : St)
  : outcome St :=
  match count with
  | O => Ret s
  | S k => s' ← body i s; for_loop k (S i) body s'
  end.

(** Division of two [double]s. *)
Definition double_div (x y : R) : outcome R :=
  if Req_dec_T y 0 then Fault DivisionByZero else Ret (x / y)%R.

(** ** The kernel functions *)

Definition basis_2x2_dot_2d_vector {T1 T2} `{Scalar T1, Promote T2 T1}
    (basis : list (list T1)) (vec : list T2) : outcome (list T1) :=
  for_loop 2 0 (λ i result,
    b0 ← mat_at basis i 0;
    v0 ← vec_at vec 0;
    b1 ← mat_at basis i 1;
    v1 ← vec_at vec 1;
    mret (result ++ [s_add (s_mul b0 (promote v0)) (s_mul b1 (promote v1))])) [].

Definition rotate_2d_vector {T} `{Scalar T} (vec : list T) (theta : R)
  : outcome (list R) :=
  let result := [0; 0]%R in
  let t := (theta * 2 * PI / 180)%R in
  let R00 := cos t in let R01 := (- sin t)%R in
  let R10 := sin t in let R11 := cos t in
  v0 ← vec_at vec 0;
  v1 ← vec_at vec 1;
  result ← vec_set result 0 (R00 * to_double v0 + R01 * to_double v1)%R;
  v0 ← vec_at vec 0;
  v1 ← vec_at vec 1;
  result ← vec_set result 1 (R10 * to_double v0 + R11 * to_double v1)%R;
  mret result.

Definition get_distance {T} `{Scalar T} (Am RBn : list T) : outcome R :=
  a0 ← vec_at Am 0; r0 ← vec_at RBn 0;
  let norm := to_double (s_mul (s_sub a0 r0) (s_sub a0 r0)) in
  a1 ← vec_at Am 1; r1 ← vec_at RBn 1;
  let norm := (norm + to_double (s_mul (s_sub a1 r1) (s_sub a1 r1)))%R in
  let norm := sqrt norm in
  mret norm.

Equations get_gcd (a b : Z) : Z by wf (Z.abs_nat a) lt :=
  get_gcd a b with Z.eq_dec a 0%Z := {
    | left _ => b
    | right _ => get_gcd (Z.rem b a) a }.
Next Obligation.
  pose proof (Z.rem_bound_abs b a). lia.
Qed.

(** The calls [get_gcd] makes: [get_gcd_calls callee caller] when the body
    run on the arguments [caller] calls itself on the arguments [callee]. *)
Inductive get_gcd_calls : Z * Z → Z * Z → Prop :=
  | get_gcd_recursive_call (a b : Z) :
      a ≠ 0%Z → get_gcd_calls (Z.rem b a, a) (a, b).

(** The loop of [find_gcd]: [count] iterations remain, [i] is the index. *)
Fixpoint find_gcd_loop (arr : list Z) (count i : nat) (result : Z) : outcome Z :=
  match count with
  | O => Ret result
  | S k =>
      x ← vec_at arr i;
      let result := get_gcd x result in
      if decide (result = 1%Z) then Ret 1%Z
      else find_gcd_loop arr k (S i) result
  end.

Definition find_gcd (arr : list Z) (n : Z) : outcome Z :=
  result ← vec_at arr 0;
  find_gcd_loop arr (Z.to_nat (n - 1)) 1 result.

Definition vec1x3_dot_3x3_matrix {T} `{Scalar T}
    (a : list T) (matrix : list (list T)) : outcome (list T) :=
  for_loop (length a) 0 (λ i b,
    a0 ← vec_at a 0; m0 ← mat_at matrix 0 i;
    a1 ← vec_at a 1; m1 ← mat_at matrix 1 i;
    a2 ← vec_at a 2; m2 ← mat_at matrix 2 i;
    vec_set b i (s_add (s_add (s_mul a0 m0) (s_mul a1 m1)) (s_mul a2 m2)))
    (replicate 3 s_zero).

Definition get_3x3_matrix_determinant {T} `{Scalar T} (mat : list (list T))
  : outcome R :=
  for_loop 3 0 (λ i determinant,
    m0 ← mat_at mat 0 i;
    m11 ← mat_at mat 1 ((i + 1) mod 3);
    m22 ← mat_at mat 2 ((i + 2) mod 3);
    m12 ← mat_at mat 1 ((i + 2) mod 3);
    m21 ← mat_at mat 2 ((i + 1) mod 3);
    mret (determinant
          + to_double (s_mul m0 (s_sub (s_mul m11 m22) (s_mul m12 m21))))%R) 0%R.

Definition invert_3x3_matrix {T} `{Scalar T} (mat : list (list T))
  : outcome (list (list R)) :=
  determinant ← get_3x3_matrix_determinant mat;
  for_loop 3 0 (λ i minv,
    for_loop 3 0 (λ j minv,
      p ← mat_at mat ((j + 1) mod 3) ((i + 1) mod 3);
      q ← mat_at mat ((j + 2) mod 3) ((i + 2) mod 3);
      r ← mat_at mat ((j + 1) mod 3) ((i + 2) mod 3);
      s ← mat_at mat ((j + 2) mod 3) ((i + 1) mod 3);
      x ← double_div (to_double (s_sub (s_mul p q) (s_mul r s))) determinant;
      mat_set minv i j x) minv)
    (replicate 3 (replicate 3 0%R)).

(** ** Reference notions of geometry and linear algebra

    The rotation of the plane, the determinant by cofactor expansion along
    the first row, the adjugate (the transpose of the matrix of
    cofactors), the product and the identity of 3x3 real matrices, as
    mathematics defines them; they are what the kernel's results are
    compared with. *)

(** The rotation of the vector [(v0, v1)] by [theta] degrees, as the
    specification words it. *)
Definition standard_rotation (v0 v1 theta : R) : list R :=
  [v0 * cos (theta * PI / 180) - v1 * sin (theta * PI / 180);
   v0 * sin (theta * PI / 180) + v1 * cos (theta * PI / 180)]%R.

Definition entry (m : list (list R)) (i j : nat) : R :=
  default 0%R (m !! i ≫= λ row, row !! j).

Definition tabulate_3x3 (f : nat → nat → R) : list (list R) :=
  [[f 0 0; f 0 1; f 0 2]; [f 1 0; f 1 1; f 1 2]; [f 2 0; f 2 1; f 2 2]]%nat.

(** The two indices of {0, 1, 2} left when [i] is deleted, in order. *)
Definition remaining (i : nat) : nat * nat :=
  match i with
  | 0 => (1, 2)
  | 1 => (0, 2)
  | _ => (0, 1)
  end%nat.

Definition minor (m : list (list R)) (i j : nat) : R :=
  let '(r1, r2) := remaining i in
  let '(c1, c2) := remaining j in
  (entry m r1 c1 * entry m r2 c2 - entry m r1 c2 * entry m r2 c1)%R.

Definition cofactor (m : list (list R)) (i j : nat) : R :=
  ((-1) ^ (i + j) * minor m i j)%R.

Definition cofactor_determinant (m : list (list R)) : R :=
  (entry m 0 0 * cofactor m 0 0 + entry m 0 1 * cofactor m 0 1
   + entry m 0 2 * cofactor m 0 2)%R.

Definition adjugate (m : list (list R)) : list (list R) :=
  tabulate_3x3 (λ i j, cofactor m j i).

Definition mat_div (m : list (list R)) (k : R) : list (list R) :=
  map (map (λ x, x / k)%R) m.

Definition mat_mul (A B : list (list R)) : list (list R) :=
  tabulate_3x3 (λ i j,
    entry A i 0 * entry B 0 j + entry A i 1 * entry B 1 j
    + entry A i 2 * entry B 2 j)%R.

Definition identity_3x3 : list (list R) :=
  tabulate_3x3 (λ i j, if decide (i = j) then 1%R else 0%R).

(** A matrix with at least three rows whose first three rows have at least
    three entries each. *)
Definition at_least_3x3 {T} (matrix : list (list T)) : Prop :=
  3 ≤ length matrix ∧ Forall (λ row, 3 ≤ length row) (take 3 matrix).

(** ** The kernel functions over a store

    The same functions once more, this time with their reference
    parameters as references: every [std::vector] object lives in a store,
    a parameter of type [std::vector<T> &] is the location of its object,
    a local vector is allocated at a fresh location, assigned through that
    location and released when the function returns its value.  This is
    the reading of the source on which a function could change what its
    caller passed to it. *)
Module Imp.

Definition loc := positive.

(** The objects a location can hold, by element type. *)
Inductive object : Type :=
  | IntVector (v : list Z)
  | DoubleVector (v : list R)
  | IntMatrix (m : list (list Z))
  | DoubleMatrix (m : list (list R)).

Abbreviation store := (gmap loc object).

(** Element types whose vectors and matrices the store holds. *)
Class Stored (T : Type) := {
  vector_object : list T → object;
  matrix_object : list (list T) → object;
  object_vector : object → option (list T);
  object_matrix : object → option (list (list T));
  object_vector_object v : object_vector (vector_object v) = Some v;
  object_matrix_object m : object_matrix (matrix_object m) = Some m
}.

#[global, refine] Instance int_stored : Stored Z := {|
  vector_object := IntVector;
  matrix_object := IntMatrix;
  object_vector o := match o with IntVector v => Some v | _ => None end;
  object_matrix o := match o with IntMatrix m => Some m | _ => None end
|}.
Proof. all: reflexivity. Defined.

#[global, refine] Instance double_stored : Stored R := {|
  vector_object := DoubleVector;
  matrix_object := DoubleMatrix;
  object_vector o := match o with DoubleVector v => Some v | _ => None end;
  object_matrix o := match o with DoubleMatrix m => Some m | _ => None end
|}.
Proof. all: reflexivity. Defined.

(** Computations that read and write the store and may stop on a fault. *)
Definition M (A : Type) : Type := store → outcome (A * store).

Definition ret {A} (a : A) : M A := λ s, Ret (a, s).

Definition bind {A B} (m : M A) (k : A → M B) : M B :=
  λ s, match m s with
       | Ret (a, s') => k a s'
       | Fault e => Fault e
       end.

#[global] Instance imp_ret : MRet M := @ret.
#[global] Instance imp_bind : MBind M := λ A B k m, bind m k.

Definition get_vector {T} `{Stored T} (l : loc) : M (list T) :=
  λ s, match s !! l ≫= object_vector with
       | Some v => Ret (v, s)
       | None => Fault BadReference
       end.

Definition get_matrix {T} `{Stored T} (l : loc) : M (list (list T)) :=
  λ s, match s !! l ≫= object_matrix with
       | Some m => Ret (m, s)
       | None => Fault BadReference
       end.

Definition put_vector {T} `{Stored T} (l : loc) (v : list T) : M unit :=
  λ s, Ret ((), <[l := vector_object v]> s).

Definition put_matrix {T} `{Stored T} (l : loc) (m : list (list T)) : M unit :=
  λ s, Ret ((), <[l := matrix_object m]> s).

(** Lifting the outcome of an access to a value already fetched. *)
Definition lift {A} (o : outcome A) : M A :=
  λ s, match o with
       | Ret a => Ret (a, s)
       | Fault e => Fault e
       end.

(** [vec.size()], [vec[i]] and [mat[i][j]] as values, [vec[i] = x],
    [mat[i][j] = x] and [vec.push_back(x)]. *)
Definition size {T} `{Stored T} (l : loc) : M nat :=
  v ← get_vector l; ret (length v).

Definition read_vector {T} `{Stored T} (l : loc) (i : nat) : M T :=
  v ← get_vector l; lift (vec_at v i).

Definition read_matrix {T} `{Stored T} (l : loc) (i j : nat) : M T :=
  m ← get_matrix l; lift (mat_at m i j).

Definition write_vector {T} `{Stored T} (l : loc) (i : nat) (x : T) : M unit :=
  v ← get_vector l; v' ← lift (vec_set v i x); put_vector l v'.

Definition write_matrix {T} `{Stored T} (l : loc) (i j : nat) (x : T) : M unit :=
  m ← get_matrix l; m' ← lift (mat_set m i j x); put_matrix l m'.

Definition push_back {T} `{Stored T} (l : loc) (x : T) : M unit :=
  v ← get_vector l; put_vector l (v ++ [x]).

(** A local object: allocated at a location the store does not use. *)
Definition local_vector {T} `{Stored T} (v : list T) : M loc :=
  λ s, let l := fresh (dom s) in Ret (l, <[l := vector_object v]> s).

Definition local_matrix {T} `{Stored T} (m : list (list T)) : M loc :=
  λ s, let l := fresh (dom s) in Ret (l, <[l := matrix_object m]> s).

(** [return local;]: the value of a local object is handed to the caller
    and the object is released. *)
Definition release (l : loc) : M unit := λ s, Ret ((), delete l s).

Definition return_vector {T} `{Stored T} (l : loc) : M (list T) :=
  v ← get_vector l; _ ← release l; ret v.

Definition return_matrix {T} `{Stored T} (l : loc) : M (list (list T)) :=
  m ← get_matrix l; _ ← release l; ret m.

(** [for (int i = lo; i < lo + count; i++) body], threading the scalar
    variables the body assigns. *)
Fixpoint loop {St} (count i : nat) (body : nat → St → M St) (x : St) : M St :=
  match count with
  | O => ret x
  | S k => x' ← body i x; loop k (S i) body x'
  end.

(** A computation that, run on [s], fetches the value [o] (or stops on
    its fault) and leaves [s] as it is. *)
Definition fetches {A} (m : M A) (s : store) (o : outcome A) : Prop :=
  m s = (λ x, (x, s)) <$> o.

Definition basis_2x2_dot_2d_vector {T1 T2} `{Scalar T1, Promote T2 T1}
    `{Stored T1, Stored T2} (basis vec : loc) : M (list T1) :=
  result ← local_vector (T := T1) [];
  _ ← loop 2 0 (λ i _,
    b0 ← read_matrix (T := T1) basis i 0;
    v0 ← read_vector (T := T2) vec 0;
    b1 ← read_matrix (T := T1) basis i 1;
    v1 ← read_vector (T := T2) vec 1;
    push_back result (s_add (s_mul b0 (promote v0)) (s_mul b1 (promote v1))))
    ();
  return_vector result.

Definition rotate_2d_vector {T} `{Scalar T, Stored T} (vec : loc) (theta : R)
  : M (list R) :=
  result ← local_vector [0; 0]%R;
  let t := (theta * 2 * PI / 180)%R in
  let R00 := cos t in let R01 := (- sin t)%R in
  let R10 := sin t in let R11 := cos t in
  v0 ← read_vector (T := T) vec 0;
  v1 ← read_vector (T := T) vec 1;
  _ ← write_vector result 0 (R00 * to_double v0 + R01 * to_double v1)%R;
  v0 ← read_vector (T := T) vec 0;
  v1 ← read_vector (T := T) vec 1;
  _ ← write_vector result 1 (R10 * to_double v0 + R11 * to_double v1)%R;
  return_vector result.

Definition get_distance {T} `{Scalar T, Stored T} (Am RBn : loc) : M R :=
  a0 ← read_vector (T := T) Am 0;
  r0 ← read_vector (T := T) RBn 0;
  let norm := to_double (s_mul (s_sub a0 r0) (s_sub a0 r0)) in
  a1 ← read_vector (T := T) Am 1;
  r1 ← read_vector (T := T) RBn 1;
  let norm := (norm + to_double (s_mul (s_sub a1 r1) (s_sub a1 r1)))%R in
  let norm := sqrt norm in
  ret norm.

(** [get_gcd] takes its arguments by value and touches no object. *)
Definition get_gcd (a b : Z) : M Z := ret (get_gcd a b).

Fixpoint find_gcd_loop (arr : loc) (count i : nat) (result : Z) : M Z :=
  match count with
  | O => ret result
  | S k =>
      x ← read_vector (T := Z) arr i;
      result ← get_gcd x result;
      if decide (result = 1%Z) then ret 1%Z
      else find_gcd_loop arr k (S i) result
  end.

Definition find_gcd (arr : loc) (n : Z) : M Z :=
  result ← read_vector (T := Z) arr 0;
  find_gcd_loop arr (Z.to_nat (n - 1)) 1 result.

(** Nothing assigns [a], so the loop bound [a.size()] is read once. *)
Definition vec1x3_dot_3x3_matrix {T} `{Scalar T, Stored T}
    (a matrix : loc) : M (list T) :=
  b ← local_vector (T := T) (replicate 3 s_zero);
  n ← size (T := T) a;
  _ ← loop n 0 (λ i _,
    a0 ← read_vector (T := T) a 0; m0 ← read_matrix (T := T) matrix 0 i;
    a1 ← read_vector (T := T) a 1; m1 ← read_matrix (T := T) matrix 1 i;
    a2 ← read_vector (T := T) a 2; m2 ← read_matrix (T := T) matrix 2 i;
    write_vector b i (s_add (s_add (s_mul a0 m0) (s_mul a1 m1)) (s_mul a2 m2)))
    ();
  return_vector b.

Definition get_3x3_matrix_determinant {T} `{Scalar T, Stored T} (mat : loc)
  : M R :=
  loop 3 0 (λ i determinant,
    m0 ← read_matrix (T := T) mat 0 i;
    m11 ← read_matrix (T := T) mat 1 ((i + 1) mod 3);
    m22 ← read_matrix (T := T) mat 2 ((i + 2) mod 3);
    m12 ← read_matrix (T := T) mat 1 ((i + 2) mod 3);
    m21 ← read_matrix (T := T) mat 2 ((i + 1) mod 3);
    ret (determinant
         + to_double (s_mul m0 (s_sub (s_mul m11 m22) (s_mul m12 m21))))%R)
    0%R.

Definition invert_3x3_matrix {T} `{Scalar T, Stored T} (mat : loc)
  : M (list (list R)) :=
  determinant ← get_3x3_matrix_determinant (T := T) mat;
  minv ← local_matrix (replicate 3 (replicate 3 0%R));
  _ ← loop 3 0 (λ i _,
    loop 3 0 (λ j _,
      p ← read_matrix (T := T) mat ((j + 1) mod 3) ((i + 1) mod 3);
      q ← read_matrix (T := T) mat ((j + 2) mod 3) ((i + 2) mod 3);
      r ← read_matrix (T := T) mat ((j + 1) mod 3) ((i + 2) mod 3);
      s ← read_matrix (T := T) mat ((j + 2) mod 3) ((i + 1) mod 3);
      x ← lift (double_div (to_double (s_sub (s_mul p q) (s_mul r s)))
                            determinant);
      write_matrix minv i j x) ()) ();
  return_matrix minv.

End Imp.

(** ** The lattice enumerator *)

Module Enumerator.

(** Modelled from the spec: the Lattice and TransformationMatrix of the data
    model (section 3).  The repository's sources under [backend/] hold the
    geometry kernel only; the enumerator's code is not among them. *)
Record Lattice := { a1 : R * R; a2 : R * R }.

Record TransformationMatrix := Matrix { m11 : Z; m12 : Z; m21 : Z; m22 : Z }.

Definition det (M : TransformationMatrix) : Z :=
  (m11 M * m22 M - m12 M * m21 M)%Z.

(** A lattice is degenerate when its basis spans no area. *)
Definition nondegenerate (L : Lattice) : Prop :=
  ((a1 L).1 * (a2 L).2 - (a1 L).2 * (a2 L).1 ≠ 0)%R.

Definition combine (x : Z) (u : R * R) (y : Z) (v : R * R) : R * R :=
  (IZR x * u.1 + IZR y * v.1, IZR x * u.2 + IZR y * v.2)%R.

(** Modelled from the spec: the supercell basis [M · Lattice basis]
    (section 3): its vectors are the integer combinations of the basis
    vectors that the rows of [M] give. *)
Definition supercell_basis (M : TransformationMatrix) (L : Lattice) : Lattice :=
  {| a1 := combine (m11 M) (a1 L) (m12 M) (a2 L);
     a2 := combine (m21 M) (a1 L) (m22 M) (a2 L) |}.

(** The points of the sublattice that [M] generates in [L]: the integer
    combinations of the supercell basis. *)
Definition sublattice (L : Lattice) (M : TransformationMatrix) (p : R * R) : Prop :=
  ∃ x y : Z,
    p = combine x (a1 (supercell_basis M L)) y (a2 (supercell_basis M L)).

Definition same_sublattice (L : Lattice) (M1 M2 : TransformationMatrix) : Prop :=
  ∀ p, sublattice L M1 p ↔ sublattice L M2 p.

(** The coefficient vectors, with respect to the basis of the lattice, of
    the points [M] generates: the integer combinations of the rows of [M]. *)
Definition row_span (M : TransformationMatrix) (c1 c2 : Z) : Prop :=
  ∃ x y : Z, (c1 = x * m11 M + y * m21 M ∧ c2 = x * m12 M + y * m22 M)%Z.

(** Modelled from the spec: the search radius "derived from N_max", the
    bound on the entries of the matrices tried (section 4.2).  The entries
    of a canonical matrix of determinant at most [N_max] lie within
    [N_max] of zero. *)
Definition search_radius (N_max : Z) : Z := N_max.

Definition entries (N_max : Z) : list Z :=
  seqZ (- search_radius N_max) (2 * search_radius N_max + 1).

(** Modelled from the spec: "enumerate integer pairs (m11, m12, m21, m22)
    bounded by a search radius", in lexicographic order of the entries. *)
Definition candidates (N_max : Z) : list TransformationMatrix :=
  a ← entries N_max; b ← entries N_max;
  c ← entries N_max; d ← entries N_max;
  [Matrix a b c d].

(** Modelled from the spec: "filter to |det(M)| in [1, N_max]". *)
Definition in_determinant_range (N_max : Z) (M : TransformationMatrix) : Prop :=
  (1 ≤ Z.abs (det M) ≤ N_max)%Z.

(** Modelled from the spec: the canonical form of the canonicalization
    step, the Hermite normal form the spec names: upper triangular, with a
    positive diagonal and the entry above the diagonal reduced modulo the
    diagonal entry of its column. *)
Definition canonical (M : TransformationMatrix) : Prop :=
  (m21 M = 0 ∧ 0 < m11 M ∧ 0 ≤ m12 M < m22 M)%Z.

#[global] Instance in_determinant_range_dec N_max M :
  Decision (in_determinant_range N_max M).
Proof. unfold in_determinant_range. apply _. Defined.

#[global] Instance canonical_dec M : Decision (canonical M).
Proof. unfold canonical. apply _. Defined.

(** Modelled from the spec: the enumerator of section 4.2.  The candidates
    within the search radius are filtered to the determinant range, the
    canonicalization step keeps of the matrices that generate one
    sublattice the one in canonical form, and the sequence is ordered by
    increasing [|det|], then lexicographically on the entries.  The lazy
    sequence of the spec is the list of the matrices it yields, in order. *)
Definition enumerate (N_max : Z) : list TransformationMatrix :=
  let filtered := filter (in_determinant_range N_max) (candidates N_max) in
  let canonicalized := filter canonical filtered in
  d ← seqZ 1 N_max;
  filter (λ M, Z.abs (det M) = d) canonicalized.

End Enumerator.


(** ** Printing of a matrix ([backend/logging.cpp])

    [std::cout] is the sequence of the characters written to it so far.
    How [operator<<] formats one element of type [T] is the parameter
    [show]; [std::endl] writes a newline. *)

Definition newline : ascii := "010"%char.
Definition space : ascii := " "%char.

Definition print_2d_vector {T} (show : T → list ascii) (vec : list (list T))
    (cout : list ascii) : outcome (list ascii) :=
  for_loop (length vec) 0 (λ i cout,
    row ← vec_at vec i;
    cout ← for_loop (length row) 0 (λ j cout,
      row ← vec_at vec i;
      x ← vec_at row j;
      mret (cout ++ show x ++ [space])) cout;
    mret (cout ++ [newline])) cout.

(** What one call writes: the elements of each row, a space after each,
    and a newline after each row. *)
Definition rendered {T} (show : T → list ascii) (vec : list (list T)) : list ascii :=
  row ← vec; (x ← row; show x ++ [space]) ++ [newline].

(** ** Shapes *)

(** A matrix with at least two rows whose first two rows have at least two
    entries each. *)
Definition at_least_2x2 {T} (basis : list (list T)) : Prop :=
  2 ≤ length basis ∧ Forall (λ row, 2 ≤ length row) (take 2 basis).


(** The leading 3x3 block of a matrix, converted to [double]; an entry the
    matrix does not have reads as zero. *)
Definition leading_3x3 {T} `{Scalar T} (mat : list (list T)) : list (list R) :=
  tabulate_3x3 (λ i j, default 0%R (to_double <$> (mat !! i ≫= λ row, row !! j))).


(** * Properties *)


(** ** Euclid's algorithm on signed integers *)

Section get_gcd_facts.
Local Open Scope Z_scope.

Example get_gcd_12_18 : get_gcd 12 18 = 6.
Proof. reflexivity. Qed.

Lemma get_gcd_zero b : get_gcd 0 b = b.
Proof. now simp get_gcd. Qed.

Lemma get_gcd_step a b : a ≠ 0 → get_gcd a b = get_gcd (Z.rem b a) a.
Proof.
  intros Ha. rewrite (get_gcd_equation_1 a b).
  destruct (Z.eq_dec a 0) as [E|E]; [contradiction | reflexivity].
Qed.

(** Up to its sign the result is the greatest common divisor. *)
Lemma get_gcd_abs a b : Z.abs (get_gcd a b) = Z.gcd a b.
Proof.
  funelim (get_gcd a b).
  - rewrite e. symmetry. apply Z.gcd_0_l.
  - rewrite H. now apply Z.gcd_rem.
Qed.

End get_gcd_facts.

Section get_gcd_properties.
Local Open Scope Z_scope.



Lemma get_gcd_nonneg a b : 0 ≤ a → 0 ≤ b → 0 ≤ get_gcd a b.
Proof.
  funelim (get_gcd a b); intros Ha Hb; [assumption|].
  apply H; [|assumption]. apply Z.rem_nonneg; assumption.
Qed.

(** The result, like every intermediate remainder, stays within the
    magnitude of the arguments. *)
Lemma get_gcd_bounded a b B : Z.abs a ≤ B → Z.abs b ≤ B → Z.abs (get_gcd a b) ≤ B.
Proof.
  funelim (get_gcd a b); intros Ha Hb; [assumption|].
  apply H; [|assumption]. pose proof (Z.rem_bound_abs b a n). lia.
Qed.




End get_gcd_properties.

Section claims_on_get_gcd.
Local Open Scope Z_scope.







(** C9: the recursion of [get_gcd] terminates on every pair of integers,
    negative ones included: the relation between a call and the call it
    makes is well founded, because the call [get_gcd (b % a) a] made for
    [a ≠ 0] has a first argument of strictly smaller absolute value; the
    function returns [b] without a call when [a = 0], and otherwise the
    value of the call it makes. *)
Theorem get_gcd_terminates :
  well_founded get_gcd_calls
  ∧ (∀ a b, a ≠ 0 → Z.abs (Z.rem b a) < Z.abs a)
  ∧ (∀ callee caller, get_gcd_calls callee caller →
       get_gcd caller.1 caller.2 = get_gcd callee.1 callee.2)
  ∧ (∀ b, get_gcd 0 b = b).
Proof.
  split; [|split; [|split]].
  - apply (well_founded_lt_compat _ (λ p : Z * Z, Z.abs_nat p.1)).
    intros callee caller Hcall. destruct Hcall as [a b Ha]. simpl.
    pose proof (Z.rem_bound_abs b a Ha). lia.
  - intros a b Ha. now apply Z.rem_bound_abs.
  - intros callee caller Hcall. destruct Hcall as [a b Ha]. simpl.
    now apply get_gcd_step.
  - apply get_gcd_zero.
Qed.
End claims_on_get_gcd.

(** ** The gcd of a sequence *)

Section claims_on_find_gcd.
Local Open Scope Z_scope.

Lemma vec_at_lookup {T} (v : list T) i x : v !! i = Some x → vec_at v i = Ret x.
Proof. unfold vec_at. now intros ->. Qed.






Example find_gcd_0_6_4 : find_gcd [0; 6; 4] 3 = Ret 2.
Proof. reflexivity. Qed.

Example find_gcd_all_zero : find_gcd [0; 0; 0] 3 = Ret 0.
Proof. reflexivity. Qed.
End claims_on_find_gcd.

(** ** Rotation in the plane *)

Section claims_on_rotate_2d_vector.
Local Open Scope R_scope.

Lemma vec_set_in_range {A} (v : list A) (i : nat) (x : A) :
  (i < length v)%nat → vec_set v i x = Ret (<[i:=x]> v).
Proof.
  intros Hi. unfold vec_set.
  destruct (Nat.ltb_spec i (length v)); [reflexivity | lia].
Qed.

Lemma vec_set_out_of_range {A} (v : list A) (i : nat) (x : A) :
  (length v ≤ i)%nat → vec_set v i x = Fault OutOfBounds.
Proof.
  intros Hi. unfold vec_set.
  destruct (Nat.ltb_spec i (length v)); [lia | reflexivity].
Qed.

(** What the body computes on a two-component vector. *)
Lemma rotate_2d_vector_eq {T} `{Scalar T} (v0 v1 : T) (theta : R) :
  rotate_2d_vector [v0; v1] theta =
  Ret [cos (theta * 2 * PI / 180) * to_double v0
       + - sin (theta * 2 * PI / 180) * to_double v1;
       sin (theta * 2 * PI / 180) * to_double v0
       + cos (theta * 2 * PI / 180) * to_double v1].
Proof.
  unfold rotate_2d_vector.
  change (vec_at [v0; v1] 0) with (Ret v0).
  change (vec_at [v0; v1] 1) with (Ret v1).
  cbn [mbind outcome_mbind outcome_bind].
  rewrite vec_set_in_range by (simpl; lia).
  cbn [mbind outcome_mbind outcome_bind].
  rewrite vec_set_in_range by (simpl; lia).
  reflexivity.
Qed.

Lemma full_turns_cos (k : nat) : cos (2 * INR k * PI) = 1.
Proof.
  replace (2 * INR k * PI) with (0 + 2 * INR k * PI) by ring.
  rewrite cos_period. apply cos_0.
Qed.

Lemma full_turns_sin (k : nat) : sin (2 * INR k * PI) = 0.
Proof.
  replace (2 * INR k * PI) with (0 + 2 * INR k * PI) by ring.
  rewrite sin_period. apply sin_0.
Qed.

(** C1: the body converts [theta] to radians with the factor
    [2 * PI / 180], so it rotates by twice the angle it is given: its
    result is the standard rotation by [2 * theta] degrees.  At the
    vector (1, 0) and 90 degrees it returns (-1, 0), where the standard
    rotation by 90 degrees is (0, 1). *)
Theorem rotate_2d_vector_rotates_by_twice_theta :
  (∀ T (ST : Scalar T) (v0 v1 : T) (theta : R),
     rotate_2d_vector [v0; v1] theta
     = Ret (standard_rotation (to_double v0) (to_double v1) (2 * theta)))
  ∧ rotate_2d_vector [1; 0] 90 = Ret [-1; 0]
  ∧ standard_rotation 1 0 90 = [0; 1].
Proof.
  split; [|split].
  - intros T ST v0 v1 theta. rewrite rotate_2d_vector_eq. unfold standard_rotation.
    replace (2 * theta * PI / 180) with (theta * 2 * PI / 180) by field.
    do 2 f_equal; [ring | f_equal; ring].
  - rewrite rotate_2d_vector_eq.
    replace (90 * 2 * PI / 180) with PI by field.
    rewrite cos_PI, sin_PI. simpl to_double.
    do 2 f_equal; [ring | f_equal; ring].
  - unfold standard_rotation.
    replace (90 * PI / 180) with (PI / 2) by field.
    rewrite cos_PI2, sin_PI2.
    do 2 f_equal; [ring | f_equal; ring].
Qed.

(** C5: the rotation by 0 degrees returns the vector itself, and so does
    the rotation by 360 degrees (in exact arithmetic the approximation
    of the full turn is an equality). *)
Theorem rotate_2d_vector_identity_and_full_turn {T} `{Scalar T} (v0 v1 : T) :
  rotate_2d_vector [v0; v1] 0 = Ret [to_double v0; to_double v1]
  ∧ rotate_2d_vector [v0; v1] 360 = Ret [to_double v0; to_double v1].
Proof.
  split; rewrite rotate_2d_vector_eq.
  - replace (0 * 2 * PI / 180) with 0 by field.
    rewrite cos_0, sin_0. do 2 f_equal; [ring | f_equal; ring].
  - replace (360 * 2 * PI / 180) with (2 * INR 2 * PI) by (simpl INR; field).
    rewrite full_turns_cos, full_turns_sin.
    do 2 f_equal; [ring | f_equal; ring].
Qed.
End claims_on_rotate_2d_vector.

(** ** Determinant and inverse of a 3x3 matrix *)

Section claims_on_3x3_matrices.
Local Open Scope R_scope.






Lemma identity_3x3_eq :
  identity_3x3 = [[1; 0; 0]; [0; 1; 0]; [0; 0; 1]].
Proof. reflexivity. Qed.



End claims_on_3x3_matrices.

(** ** Row vector times 3x3 matrix *)

Section claims_on_vec1x3_dot_3x3_matrix.

Lemma mat_at_Ret {T} (m : list (list T)) (i j : nat) (x : T) :
  mat_at m i j = Ret x ↔ ∃ row, m !! i = Some row ∧ row !! j = Some x.
Proof.
  unfold mat_at, vec_at. split.
  - destruct (m !! i) as [row|] eqn:Hrow; cbn; [|discriminate].
    destruct (row !! j) as [y|] eqn:Hy; cbn; [|discriminate].
    intros [= ->]. now exists row.
  - intros (row & -> & Hj). cbn. now rewrite Hj.
Qed.

(** A matrix is at least 3x3 exactly when its nine leading entries can
    be read. *)
Lemma at_least_3x3_reads {T} (m : list (list T)) :
  at_least_3x3 m ↔ ∀ i j, i < 3 → j < 3 → ∃ x, mat_at m i j = Ret x.
Proof.
  unfold at_least_3x3. split.
  - intros [Hrows Hcols] i j Hi Hj.
    destruct (lookup_lt_is_Some_2 m i) as [row Hrow]; [lia|].
    assert (3 ≤ length row) as Hlen.
    { rewrite Forall_lookup in Hcols. apply (Hcols i).
      now rewrite lookup_take_lt. }
    destruct (lookup_lt_is_Some_2 row j) as [x Hx]; [lia|].
    exists x. apply mat_at_Ret. now exists row.
  - intros Hreads. split.
    + destruct (Hreads 2 2) as [x Hx]; [lia | lia |].
      apply mat_at_Ret in Hx as (row & Hrow & _).
      apply lookup_lt_Some in Hrow. lia.
    + apply Forall_lookup. intros i row Hrow.
      assert (i < 3) as Hi.
      { apply lookup_lt_Some in Hrow. rewrite length_take in Hrow. lia. }
      rewrite lookup_take_lt in Hrow by assumption.
      destruct (Hreads i 2) as [x Hx]; [lia | lia |].
      apply mat_at_Ret in Hx as (row' & Hrow' & Hx).
      assert (row' = row) as -> by congruence.
      apply lookup_lt_Some in Hx. lia.
Qed.

Ltac read_matrix :=
  repeat match goal with
    | |- context [mat_at ?m ?i ?j] =>
        let E := fresh "Hread" in
        destruct (mat_at m i j) eqn:E; cbn -[mat_at]; [|discriminate]
    end.

(** The product on a vector of three components, given the nine leading
    entries [m i j] of the matrix. *)
Lemma vec1x3_dot_3x3_matrix_eq {T} `{Scalar T} (a0 a1 a2 : T)
    (matrix : list (list T)) (m : nat → nat → T) :
  (∀ i j, i < 3 → j < 3 → mat_at matrix i j = Ret (m i j)) →
  vec1x3_dot_3x3_matrix [a0; a1; a2] matrix =
  Ret [s_add (s_add (s_mul a0 (m 0 0)) (s_mul a1 (m 1 0))) (s_mul a2 (m 2 0));
       s_add (s_add (s_mul a0 (m 0 1)) (s_mul a1 (m 1 1))) (s_mul a2 (m 2 1));
       s_add (s_add (s_mul a0 (m 0 2)) (s_mul a1 (m 1 2))) (s_mul a2 (m 2 2))].
Proof.
  intros Hm. unfold vec1x3_dot_3x3_matrix. cbn -[mat_at].
  rewrite !Hm by lia. reflexivity.
Qed.

Lemma vec1x3_dot_3x3_matrix_returns {T} `{Scalar T} (a : list T)
    (matrix : list (list T)) (b : list T) :
  vec1x3_dot_3x3_matrix a matrix = Ret b →
  a = [] ∨ (length a = 3 ∧ at_least_3x3 matrix).
Proof.
  destruct a as [|a0 [|a1 [|a2 [|a3 a']]]]; [now left | | | |];
    unfold vec1x3_dot_3x3_matrix; cbn -[mat_at].
  - read_matrix. discriminate.
  - read_matrix. discriminate.
  - intros Hret. right. split; [reflexivity|].
    apply at_least_3x3_reads. intros i j Hi Hj. revert Hret.
    read_matrix. intros _.
    destruct i as [|[|[|i]]]; [| | |lia];
      (destruct j as [|[|[|j]]]; [| | |lia]); eauto.
  - read_matrix. discriminate.
Qed.

(** C10, as stated, fails: on the empty vector the loop body never runs,
    so no access is out of bounds whatever the matrix is, here the empty
    matrix; the function returns the zero vector. *)
Lemma vec1x3_dot_3x3_matrix_empty_counterexample :
  vec1x3_dot_3x3_matrix ([] : list Z) [] = Ret [0; 0; 0]%Z
  ∧ ¬ (length ([] : list Z) = 3 ∧ at_least_3x3 ([] : list (list Z))).
Proof. split; [reflexivity|]. intros [Hlen _]. discriminate. Qed.

(** C10 (amended): the function returns, all its accesses being in
    bounds, exactly when the vector is empty or has length three with a
    matrix that is at least 3x3.  On the empty vector the result is the
    zero vector of length three; on a vector of length three it is the
    product of the row vector with the matrix,
    [b[i] = a[0]*matrix[0][i] + a[1]*matrix[1][i] + a[2]*matrix[2][i]]. *)
Theorem vec1x3_dot_3x3_matrix_in_bounds {T} `{Scalar T}
    (a : list T) (matrix : list (list T)) :
  ((∃ b, vec1x3_dot_3x3_matrix a matrix = Ret b)
     ↔ a = [] ∨ (length a = 3 ∧ at_least_3x3 matrix))
  ∧ (a = [] → vec1x3_dot_3x3_matrix a matrix = Ret [s_zero; s_zero; s_zero])
  ∧ (length a = 3 → at_least_3x3 matrix →
       ∃ a0 a1 a2 (m : nat → nat → T),
         a = [a0; a1; a2]
         ∧ (∀ i j, i < 3 → j < 3 → mat_at matrix i j = Ret (m i j))
         ∧ vec1x3_dot_3x3_matrix a matrix =
           Ret [s_add (s_add (s_mul a0 (m 0 0)) (s_mul a1 (m 1 0)))
                      (s_mul a2 (m 2 0));
                s_add (s_add (s_mul a0 (m 0 1)) (s_mul a1 (m 1 1)))
                      (s_mul a2 (m 2 1));
                s_add (s_add (s_mul a0 (m 0 2)) (s_mul a1 (m 1 2)))
                      (s_mul a2 (m 2 2))]).
Proof.
  assert (Hprod : length a = 3 → at_least_3x3 matrix →
    ∃ a0 a1 a2 (m : nat → nat → T),
      a = [a0; a1; a2]
      ∧ (∀ i j, i < 3 → j < 3 → mat_at matrix i j = Ret (m i j))
      ∧ vec1x3_dot_3x3_matrix a matrix =
        Ret [s_add (s_add (s_mul a0 (m 0 0)) (s_mul a1 (m 1 0)))
                   (s_mul a2 (m 2 0));
             s_add (s_add (s_mul a0 (m 0 1)) (s_mul a1 (m 1 1)))
                   (s_mul a2 (m 2 1));
             s_add (s_add (s_mul a0 (m 0 2)) (s_mul a1 (m 1 2)))
                   (s_mul a2 (m 2 2))]).
  { intros Hlen Hmat.
    destruct a as [|a0 [|a1 [|a2 [|a3 a']]]]; try discriminate.
    pose (m := λ i j, default s_zero (matrix !! i ≫= λ row, row !! j)).
    assert (Hm : ∀ i j, i < 3 → j < 3 → mat_at matrix i j = Ret (m i j)).
    { intros i j Hi Hj.
      destruct (proj1 (at_least_3x3_reads matrix) Hmat i j Hi Hj) as [x Hx].
      rewrite Hx. f_equal. apply mat_at_Ret in Hx as (row & Hrow & Hx).
      unfold m. rewrite Hrow. cbn. now rewrite Hx. }
    exists a0, a1, a2, m. split; [reflexivity|]. split; [exact Hm|].
    now apply vec1x3_dot_3x3_matrix_eq. }
  split; [|split; [|exact Hprod]].
  - split.
    + intros [b Hb]. now apply vec1x3_dot_3x3_matrix_returns in Hb.
    + intros [->|[Hlen Hmat]]; [now eexists|].
      destruct (Hprod Hlen Hmat) as (a0 & a1 & a2 & m & _ & _ & Hret).
      eauto.
  - now intros ->.
Qed.

Lemma vec1x3_dot_3x3_matrix_in_bounds_witness :
  vec1x3_dot_3x3_matrix [1; 2; 3]%Z [[1; 0; 0]; [0; 1; 0]; [0; 0; 1]]%Z
  = Ret [1; 2; 3]%Z.
Proof.
  destruct (vec1x3_dot_3x3_matrix_in_bounds
              [1; 2; 3]%Z [[1; 0; 0]; [0; 1; 0]; [0; 0; 1]]%Z)
    as (_ & _ & Hprod).
  destruct Hprod as (a0 & a1 & a2 & m & Ha & Hm & Hret).
  - reflexivity.
  - split; [simpl; lia | repeat constructor].
  - injection Ha as <- <- <-. rewrite Hret.
    pose proof (Hm 0 0) as H00. pose proof (Hm 0 1) as H01.
    pose proof (Hm 0 2) as H02. pose proof (Hm 1 0) as H10.
    pose proof (Hm 1 1) as H11. pose proof (Hm 1 2) as H12.
    pose proof (Hm 2 0) as H20. pose proof (Hm 2 1) as H21.
    pose proof (Hm 2 2) as H22.
    cbn in H00, H01, H02, H10, H11, H12, H20, H21, H22.
    injection (H00 ltac:(lia) ltac:(lia)) as <-.
    injection (H01 ltac:(lia) ltac:(lia)) as <-.
    injection (H02 ltac:(lia) ltac:(lia)) as <-.
    injection (H10 ltac:(lia) ltac:(lia)) as <-.
    injection (H11 ltac:(lia) ltac:(lia)) as <-.
    injection (H12 ltac:(lia) ltac:(lia)) as <-.
    injection (H20 ltac:(lia) ltac:(lia)) as <-.
    injection (H21 ltac:(lia) ltac:(lia)) as <-.
    injection (H22 ltac:(lia) ltac:(lia)) as <-.
    reflexivity.
Defined.
End claims_on_vec1x3_dot_3x3_matrix.

(** ** The kernel functions leave the store as they found it *)

Lemma bind_Ret {A B} (x : A) (f : A → outcome B) : Ret x ≫= f = f x.
Proof. reflexivity. Qed.

Lemma fmap_Ret {A B} (x : A) (f : A → B) : f <$> Ret x = Ret (f x).
Proof. reflexivity. Qed.

Section store_accesses.
Import Imp.

Lemma run_bind {A B} (m : M A) (k : A → M B) (s : store) :
  (m ≫= k) s = match m s with
               | Ret (a, s') => k a s'
               | Fault e => Fault e
               end.
Proof. reflexivity. Qed.

Lemma bind_fetches {A B} (m : M A) (k : A → M B) (s : store) (o : outcome A) :
  fetches m s o →
  (m ≫= k) s = match o with
               | Ret x => k x s
               | Fault e => Fault e
               end.
Proof. unfold fetches. intros Hm. rewrite run_bind, Hm. now destruct o. Qed.

Context {T : Type} `{Stored T}.

Lemma get_vector_at (s : store) (l : loc) (v : list T) :
  s !! l = Some (vector_object v) → get_vector l s = Ret (v, s).
Proof.
  intros Hl. unfold get_vector. rewrite Hl. cbn.
  now rewrite object_vector_object.
Qed.

Lemma get_matrix_at (s : store) (l : loc) (m : list (list T)) :
  s !! l = Some (matrix_object m) → get_matrix l s = Ret (m, s).
Proof.
  intros Hl. unfold get_matrix. rewrite Hl. cbn.
  now rewrite object_matrix_object.
Qed.

Lemma size_fetches (s : store) (l : loc) (v : list T) :
  s !! l = Some (vector_object v) → fetches (size (T := T) l) s (Ret (length v)).
Proof.
  intros Hl. unfold fetches, size. now rewrite run_bind, (get_vector_at s l v).
Qed.

Lemma read_vector_fetches (s : store) (l : loc) (v : list T) (i : nat) :
  s !! l = Some (vector_object v) → fetches (read_vector l i) s (vec_at v i).
Proof.
  intros Hl. unfold fetches, read_vector.
  rewrite run_bind, (get_vector_at s l v) by assumption.
  unfold lift. now destruct (vec_at v i).
Qed.

Lemma read_matrix_fetches (s : store) (l : loc) (m : list (list T)) (i j : nat) :
  s !! l = Some (matrix_object m) → fetches (read_matrix l i j) s (mat_at m i j).
Proof.
  intros Hl. unfold fetches, read_matrix.
  rewrite run_bind, (get_matrix_at s l m) by assumption.
  unfold lift. now destruct (mat_at m i j).
Qed.

(** Assignments to a local object held at [l]. *)
Lemma write_vector_local (s : store) (l : loc) (v : list T) (i : nat) (x : T) :
  write_vector l i x (<[l := vector_object v]> s)
  = (λ v', ((), <[l := vector_object v']> s)) <$> vec_set v i x.
Proof.
  unfold write_vector.
  rewrite run_bind, (get_vector_at _ l v) by apply lookup_insert_eq.
  rewrite run_bind. unfold lift. destruct (vec_set v i x) as [v'|]; [|reflexivity].
  unfold put_vector. cbn. now rewrite insert_insert_eq.
Qed.

Lemma write_matrix_local (s : store) (l : loc) (m : list (list T))
    (i j : nat) (x : T) :
  write_matrix l i j x (<[l := matrix_object m]> s)
  = (λ m', ((), <[l := matrix_object m']> s)) <$> mat_set m i j x.
Proof.
  unfold write_matrix.
  rewrite run_bind, (get_matrix_at _ l m) by apply lookup_insert_eq.
  rewrite run_bind. unfold lift.
  destruct (mat_set m i j x) as [m'|]; [|reflexivity].
  unfold put_matrix. cbn. now rewrite insert_insert_eq.
Qed.

Lemma push_back_local (s : store) (l : loc) (v : list T) (x : T) :
  push_back l x (<[l := vector_object v]> s)
  = Ret ((), <[l := vector_object (v ++ [x])]> s).
Proof.
  unfold push_back.
  rewrite run_bind, (get_vector_at _ l v) by apply lookup_insert_eq.
  unfold put_vector. now rewrite insert_insert_eq.
Qed.

(** Returning a local object gives the caller's store back. *)
Lemma return_vector_local (s : store) (l : loc) (v : list T) :
  s !! l = None →
  return_vector l (<[l := vector_object v]> s) = Ret (v, s).
Proof.
  intros Hl. unfold return_vector.
  rewrite run_bind, (get_vector_at _ l v) by apply lookup_insert_eq.
  rewrite run_bind. unfold release.
  now rewrite delete_insert_eq, delete_id.
Qed.

Lemma return_matrix_local (s : store) (l : loc) (m : list (list T)) :
  s !! l = None →
  return_matrix l (<[l := matrix_object m]> s) = Ret (m, s).
Proof.
  intros Hl. unfold return_matrix.
  rewrite run_bind, (get_matrix_at _ l m) by apply lookup_insert_eq.
  rewrite run_bind. unfold release.
  now rewrite delete_insert_eq, delete_id.
Qed.

(** A computation on a local object followed by the return of the
    object: the caller sees the value and its own store. *)
Lemma local_vector_returned (m : M unit) (s : store) (l : loc)
    (v : list T) (o : outcome (list T)) :
  s !! l = None →
  m (<[l := vector_object v]> s)
  = (λ v', ((), <[l := vector_object v']> s)) <$> o →
  (m ≫= λ _, return_vector l) (<[l := vector_object v]> s)
  = (λ x, (x, s)) <$> o.
Proof.
  intros Hl Hm. rewrite run_bind, Hm. destruct o as [v'|]; [|reflexivity].
  cbn. now apply return_vector_local.
Qed.

Lemma local_matrix_returned (m : M unit) (s : store) (l : loc)
    (x : list (list T)) (o : outcome (list (list T))) :
  s !! l = None →
  m (<[l := matrix_object x]> s)
  = (λ x', ((), <[l := matrix_object x']> s)) <$> o →
  (m ≫= λ _, return_matrix l) (<[l := matrix_object x]> s)
  = (λ x, (x, s)) <$> o.
Proof.
  intros Hl Hm. rewrite run_bind, Hm. destruct o as [x'|]; [|reflexivity].
  cbn. now apply return_matrix_local.
Qed.

Lemma fresh_location_unused (s : store) : s !! fresh (dom s) = None.
Proof. apply not_elem_of_dom, is_fresh. Qed.

Lemma used_location_not_fresh (s : store) (l : loc) (o : object) :
  s !! l = Some o → fresh (dom s) ≠ l.
Proof. intros Hl Heq. rewrite <- Heq, fresh_location_unused in Hl. discriminate. Qed.
End store_accesses.

(** A loop over the store runs as the loop over values does, when the loop
    variables and the store are a function [encode] of the values and each
    turn of the body runs as the body over values does. *)
Lemma loop_simulates {A B} (encode : A → B * Imp.store)
    (body : nat → B → Imp.M B) (pure_body : nat → A → outcome A) :
  (∀ i a, body i (encode a).1 (encode a).2 = encode <$> pure_body i a) →
  ∀ count i a,
    Imp.loop count i body (encode a).1 (encode a).2
    = encode <$> for_loop count i pure_body a.
Proof.
  intros Hbody count. induction count as [|count IH]; intros i a.
  - cbn. unfold Imp.ret. now destruct (encode a).
  - cbn [Imp.loop for_loop]. rewrite run_bind, Hbody.
    destruct (pure_body i a) as [a'|e]; [|reflexivity].
    cbn. rewrite <- IH. now destruct (encode a').
Qed.

Lemma loop_on_local_vector {T} `{Imp.Stored T} (s : Imp.store) (l : Imp.loc)
    (body : nat → () → Imp.M ()) (pure_body : nat → list T → outcome (list T)) :
  (∀ i v, body i () (<[l := Imp.vector_object v]> s)
          = (λ v', ((), <[l := Imp.vector_object v']> s)) <$> pure_body i v) →
  ∀ count i v,
    Imp.loop count i body () (<[l := Imp.vector_object v]> s)
    = (λ v', ((), <[l := Imp.vector_object v']> s))
        <$> for_loop count i pure_body v.
Proof.
  intros Hbody.
  exact (loop_simulates
           (λ v : list T, ((), <[l := Imp.vector_object v]> s)) body pure_body Hbody).
Qed.

Lemma loop_on_local_matrix {T} `{Imp.Stored T} (s : Imp.store) (l : Imp.loc)
    (body : nat → () → Imp.M ())
    (pure_body : nat → list (list T) → outcome (list (list T))) :
  (∀ i m, body i () (<[l := Imp.matrix_object m]> s)
          = (λ m', ((), <[l := Imp.matrix_object m']> s)) <$> pure_body i m) →
  ∀ count i m,
    Imp.loop count i body () (<[l := Imp.matrix_object m]> s)
    = (λ m', ((), <[l := Imp.matrix_object m']> s))
        <$> for_loop count i pure_body m.
Proof.
  intros Hbody.
  exact (loop_simulates
           (λ m : list (list T), ((), <[l := Imp.matrix_object m]> s))
           body pure_body Hbody).
Qed.

Section kernel_functions_over_the_store.

(** One access of a reference argument: the store-level read is replaced
    by the read of the value, whose fault ends both sides. *)
Ltac lookup_argument :=
  first
    [ eassumption
    | rewrite lookup_insert_ne;
      [ eassumption | eapply used_location_not_fresh; eassumption ] ].

Ltac case_fetched :=
  lazymatch goal with
  | |- match ?o with _ => _ end = _ =>
      first
        [ match goal with E : o = Ret _ |- _ => rewrite E end;
          rewrite bind_Ret; cbv beta iota
        | let E := fresh "Hfetched" in
          destruct o eqn:E; [rewrite bind_Ret; cbv beta iota | reflexivity] ]
  end.

Ltac fetch :=
  lazymatch goal with
  | |- (Imp.read_vector (T := ?T) ?l ?i ≫= ?k) ?s = _ =>
      erewrite (bind_fetches (Imp.read_vector (T := T) l i) k s)
        by (apply read_vector_fetches; lookup_argument);
      case_fetched
  | |- (Imp.read_matrix (T := ?T) ?l ?i ?j ≫= ?k) ?s = _ =>
      erewrite (bind_fetches (Imp.read_matrix (T := T) l i j) k s)
        by (apply read_matrix_fetches; lookup_argument);
      case_fetched
  end.

Lemma get_distance_pure {T} `{Scalar T, Imp.Stored T}
    (s : Imp.store) (Am RBn : Imp.loc) (a r : list T) :
  s !! Am = Some (Imp.vector_object a) →
  s !! RBn = Some (Imp.vector_object r) →
  Imp.get_distance Am RBn s = (λ x, (x, s)) <$> get_distance a r.
Proof.
  intros HAm HRBn. unfold Imp.get_distance, get_distance.
  do 4 fetch. reflexivity.
Qed.

Lemma get_3x3_matrix_determinant_pure {T} `{Scalar T, Imp.Stored T}
    (s : Imp.store) (mat : Imp.loc) (m : list (list T)) :
  s !! mat = Some (Imp.matrix_object m) →
  Imp.get_3x3_matrix_determinant mat s
  = (λ x, (x, s)) <$> get_3x3_matrix_determinant m.
Proof.
  intros Hmat. unfold Imp.get_3x3_matrix_determinant, get_3x3_matrix_determinant.
  apply (loop_simulates (λ d : R, (d, s))).
  intros i d. cbn [fst snd]. do 5 fetch. reflexivity.
Qed.

Lemma find_gcd_loop_pure (s : Imp.store) (arr : Imp.loc) (v : list Z)
    (count i : nat) (result : Z) :
  s !! arr = Some (Imp.vector_object v) →
  Imp.find_gcd_loop arr count i result s
  = (λ x, (x, s)) <$> find_gcd_loop v count i result.
Proof.
  intros Harr. revert i result.
  induction count as [|count IH]; intros i result; [reflexivity|].
  cbn [Imp.find_gcd_loop find_gcd_loop]. fetch.
  rewrite run_bind. unfold Imp.get_gcd at 1, Imp.ret at 1.
  destruct (decide _); [reflexivity | apply IH].
Qed.

Lemma find_gcd_pure (s : Imp.store) (arr : Imp.loc) (v : list Z) (n : Z) :
  s !! arr = Some (Imp.vector_object v) →
  Imp.find_gcd arr n s = (λ x, (x, s)) <$> find_gcd v n.
Proof.
  intros Harr. unfold Imp.find_gcd, find_gcd. fetch.
  now apply find_gcd_loop_pure.
Qed.

Lemma basis_2x2_dot_2d_vector_pure {T1 T2}
    `{Scalar T1, Promote T2 T1, Imp.Stored T1, Imp.Stored T2}
    (s : Imp.store) (basis vec : Imp.loc) (B : list (list T1)) (v : list T2) :
  s !! basis = Some (Imp.matrix_object B) →
  s !! vec = Some (Imp.vector_object v) →
  Imp.basis_2x2_dot_2d_vector basis vec s
  = (λ x, (x, s)) <$> basis_2x2_dot_2d_vector B v.
Proof.
  intros Hbasis Hvec.
  unfold Imp.basis_2x2_dot_2d_vector, basis_2x2_dot_2d_vector.
  rewrite run_bind. unfold Imp.local_vector at 1. cbv zeta.
  apply local_vector_returned; [apply fresh_location_unused|].
  apply loop_on_local_vector.
  intros i r. do 4 fetch. now rewrite push_back_local.
Qed.

Lemma vec1x3_dot_3x3_matrix_pure {T} `{Scalar T, Imp.Stored T}
    (s : Imp.store) (a matrix : Imp.loc) (v : list T) (m : list (list T)) :
  s !! a = Some (Imp.vector_object v) →
  s !! matrix = Some (Imp.matrix_object m) →
  Imp.vec1x3_dot_3x3_matrix a matrix s
  = (λ x, (x, s)) <$> vec1x3_dot_3x3_matrix v m.
Proof.
  intros Ha Hmatrix.
  unfold Imp.vec1x3_dot_3x3_matrix, vec1x3_dot_3x3_matrix.
  rewrite run_bind. unfold Imp.local_vector at 1. cbv zeta.
  erewrite (bind_fetches (Imp.size (T := T) a))
    by (apply size_fetches; lookup_argument).
  apply local_vector_returned; [apply fresh_location_unused|].
  apply loop_on_local_vector.
  intros i r. do 6 fetch. apply write_vector_local.
Qed.

Lemma rotate_2d_vector_pure {T} `{Scalar T, Imp.Stored T}
    (s : Imp.store) (vec : Imp.loc) (v : list T) (theta : R) :
  s !! vec = Some (Imp.vector_object v) →
  Imp.rotate_2d_vector vec theta s
  = (λ x, (x, s)) <$> rotate_2d_vector v theta.
Proof.
  intros Hvec. unfold Imp.rotate_2d_vector, rotate_2d_vector.
  rewrite run_bind. unfold Imp.local_vector at 1. cbv zeta.
  do 2 fetch. rewrite run_bind, write_vector_local.
  destruct (vec_set _ 0 _) as [result|]; [|reflexivity].
  rewrite bind_Ret, fmap_Ret. cbv beta iota.
  do 2 fetch. rewrite run_bind, write_vector_local.
  destruct (vec_set _ 1 _) as [result'|]; [|reflexivity].
  rewrite bind_Ret, fmap_Ret. cbv beta iota.
  now apply return_vector_local, fresh_location_unused.
Qed.

Lemma invert_3x3_matrix_pure {T} `{Scalar T, Imp.Stored T}
    (s : Imp.store) (mat : Imp.loc) (m : list (list T)) :
  s !! mat = Some (Imp.matrix_object m) →
  Imp.invert_3x3_matrix mat s = (λ x, (x, s)) <$> invert_3x3_matrix m.
Proof.
  intros Hmat. unfold Imp.invert_3x3_matrix, invert_3x3_matrix.
  erewrite (bind_fetches (Imp.get_3x3_matrix_determinant (T := T) mat))
    by (apply get_3x3_matrix_determinant_pure; eassumption).
  destruct (get_3x3_matrix_determinant m) as [determinant|]; [|reflexivity].
  rewrite bind_Ret. cbv beta iota.
  rewrite run_bind. unfold Imp.local_matrix at 1. cbv zeta.
  apply local_matrix_returned; [apply fresh_location_unused|].
  apply loop_on_local_matrix.
  intros i minv. apply loop_on_local_matrix.
  intros j minv'. do 4 fetch.
  rewrite run_bind. unfold Imp.lift at 1.
  destruct (double_div _ _) as [x|]; [|reflexivity].
  rewrite bind_Ret. apply write_matrix_local.
Qed.

(** C7: every kernel function is pure.  Run on any store that holds its
    reference arguments, a function leaves the store exactly as it found
    it (its local objects are released on return, and nothing is written
    through a reference, mutable or not), and its result, a value or a
    fault, is the result of the function over values applied to the
    objects the arguments refer to and to the arguments passed by value:
    it depends on nothing else in the store. *)
Theorem kernel_functions_are_pure :
  (∀ T1 T2 (S1 : Scalar T1) (P : Promote T2 T1)
     (St1 : Imp.Stored T1) (St2 : Imp.Stored T2)
     (s : Imp.store) (basis vec : Imp.loc) (B : list (list T1)) (v : list T2),
     s !! basis = Some (Imp.matrix_object B) →
     s !! vec = Some (Imp.vector_object v) →
     Imp.basis_2x2_dot_2d_vector basis vec s
     = (λ x, (x, s)) <$> basis_2x2_dot_2d_vector B v)
  ∧ (∀ T (S : Scalar T) (St : Imp.Stored T)
       (s : Imp.store) (vec : Imp.loc) (v : list T) (theta : R),
       s !! vec = Some (Imp.vector_object v) →
       Imp.rotate_2d_vector vec theta s
       = (λ x, (x, s)) <$> rotate_2d_vector v theta)
  ∧ (∀ T (S : Scalar T) (St : Imp.Stored T)
       (s : Imp.store) (Am RBn : Imp.loc) (a r : list T),
       s !! Am = Some (Imp.vector_object a) →
       s !! RBn = Some (Imp.vector_object r) →
       Imp.get_distance Am RBn s = (λ x, (x, s)) <$> get_distance a r)
  ∧ (∀ (s : Imp.store) (a b : Z), Imp.get_gcd a b s = Ret (get_gcd a b, s))
  ∧ (∀ (s : Imp.store) (arr : Imp.loc) (v : list Z) (n : Z),
       s !! arr = Some (Imp.vector_object v) →
       Imp.find_gcd arr n s = (λ x, (x, s)) <$> find_gcd v n)
  ∧ (∀ T (S : Scalar T) (St : Imp.Stored T)
       (s : Imp.store) (a matrix : Imp.loc) (v : list T) (m : list (list T)),
       s !! a = Some (Imp.vector_object v) →
       s !! matrix = Some (Imp.matrix_object m) →
       Imp.vec1x3_dot_3x3_matrix a matrix s
       = (λ x, (x, s)) <$> vec1x3_dot_3x3_matrix v m)
  ∧ (∀ T (S : Scalar T) (St : Imp.Stored T)
       (s : Imp.store) (mat : Imp.loc) (m : list (list T)),
       s !! mat = Some (Imp.matrix_object m) →
       Imp.get_3x3_matrix_determinant mat s
       = (λ x, (x, s)) <$> get_3x3_matrix_determinant m)
  ∧ (∀ T (S : Scalar T) (St : Imp.Stored T)
       (s : Imp.store) (mat : Imp.loc) (m : list (list T)),
       s !! mat = Some (Imp.matrix_object m) →
       Imp.invert_3x3_matrix mat s = (λ x, (x, s)) <$> invert_3x3_matrix m).
Proof.
  split; [intros; now apply basis_2x2_dot_2d_vector_pure|].
  split; [intros; now apply rotate_2d_vector_pure|].
  split; [intros; now apply get_distance_pure|].
  split; [reflexivity|].
  split; [intros; now apply find_gcd_pure|].
  split; [intros; now apply vec1x3_dot_3x3_matrix_pure|].
  split; [intros; now apply get_3x3_matrix_determinant_pure|].
  intros; now apply invert_3x3_matrix_pure.
Qed.

(** On a store with a sequence at location 1 and a matrix at location 2,
    [find_gcd] and [vec1x3_dot_3x3_matrix] return their values and the
    store they were given. *)
Lemma kernel_functions_are_pure_witness :
  let s : Imp.store :=
    {[ 1%positive := Imp.IntVector [6; 4; 8]%Z;
       2%positive := Imp.IntMatrix [[1; 0; 0]; [0; 1; 0]; [0; 0; 1]]%Z ]} in
  Imp.find_gcd 1%positive 3 s = Ret (2%Z, s)
  ∧ Imp.vec1x3_dot_3x3_matrix (T := Z) 1%positive 2%positive s
    = Ret ([6; 4; 8]%Z, s).
Proof.
  intros s.
  destruct kernel_functions_are_pure
    as (_ & _ & _ & _ & Hfind & Hdot & _).
  split.
  - rewrite (Hfind s 1%positive [6; 4; 8]%Z 3%Z) by reflexivity.
    reflexivity.
  - rewrite (Hdot Z _ _ s 1%positive 2%positive [6; 4; 8]%Z
               [[1; 0; 0]; [0; 1; 0]; [0; 0; 1]]%Z) by reflexivity.
    reflexivity.
Defined.
End kernel_functions_over_the_store.

(** ** The sequence of the lattice enumerator *)

Section sublattices.
Import Enumerator.

(** An integer combination of the supercell basis is the combination of
    the lattice basis whose coefficients are in the row span. *)
Lemma combine_supercell_basis (L : Lattice) (M : TransformationMatrix) (x y : Z) :
  combine x (a1 (supercell_basis M L)) y (a2 (supercell_basis M L))
  = combine (x * m11 M + y * m21 M) (a1 L) (x * m12 M + y * m22 M) (a2 L).
Proof.
  unfold supercell_basis. cbn [a1 a2]. unfold combine. cbn [fst snd].
  rewrite !plus_IZR, !mult_IZR. f_equal; ring.
Qed.

Lemma sublattice_row_span (L : Lattice) (M : TransformationMatrix) (p : R * R) :
  sublattice L M p
  ↔ ∃ c1 c2, row_span M c1 c2 ∧ p = combine c1 (a1 L) c2 (a2 L).
Proof.
  unfold sublattice, row_span. split.
  - intros (x & y & ->). rewrite combine_supercell_basis. eauto 10.
  - intros (c1 & c2 & (x & y & -> & ->) & ->).
    exists x, y. now rewrite combine_supercell_basis.
Qed.

(** In a non-degenerate lattice a point has one coefficient vector. *)
Lemma combine_injective (L : Lattice) (c1 c2 d1 d2 : Z) :
  nondegenerate L →
  combine c1 (a1 L) c2 (a2 L) = combine d1 (a1 L) d2 (a2 L) →
  c1 = d1 ∧ c2 = d2.
Proof.
  unfold nondegenerate, combine. destruct L as [[p q] [r s]]. cbn [a1 a2 fst snd].
  intros Hdet [= H1 H2].
  assert (((IZR c1 - IZR d1) * (p * s - q * r) = 0)%R) as Hc1.
  { transitivity
      (s * ((IZR c1 * p + IZR c2 * r) - (IZR d1 * p + IZR d2 * r))
       - r * ((IZR c1 * q + IZR c2 * s) - (IZR d1 * q + IZR d2 * s)))%R;
      [ring | rewrite H1, H2; ring]. }
  assert (((IZR c2 - IZR d2) * (p * s - q * r) = 0)%R) as Hc2.
  { transitivity
      (p * ((IZR c1 * q + IZR c2 * s) - (IZR d1 * q + IZR d2 * s))
       - q * ((IZR c1 * p + IZR c2 * r) - (IZR d1 * p + IZR d2 * r)))%R;
      [ring | rewrite H1, H2; ring]. }
  apply Rmult_integral in Hc1 as [Hc1|Hc1]; [|contradiction].
  apply Rmult_integral in Hc2 as [Hc2|Hc2]; [|contradiction].
  split; apply eq_IZR; lra.
Qed.

Lemma same_sublattice_row_span (L : Lattice) (M1 M2 : TransformationMatrix) :
  nondegenerate L →
  same_sublattice L M1 M2 ↔ ∀ c1 c2, row_span M1 c1 c2 ↔ row_span M2 c1 c2.
Proof.
  intros HL. unfold same_sublattice. split.
  - intros Hsame c1 c2.
    pose proof (Hsame (combine c1 (a1 L) c2 (a2 L))) as Hp.
    rewrite !sublattice_row_span in Hp. split; intros Hspan.
    + destruct (proj1 Hp) as (d1 & d2 & Hd & Heq); [eauto|].
      apply (combine_injective L) in Heq as [-> ->]; assumption.
    + destruct (proj2 Hp) as (d1 & d2 & Hd & Heq); [eauto|].
      apply (combine_injective L) in Heq as [-> ->]; assumption.
  - intros Hspan p. rewrite !sublattice_row_span.
    split; intros (c1 & c2 & Hc & ->); exists c1, c2;
      (split; [now apply Hspan | reflexivity]).
Qed.
End sublattices.

Section canonical_forms.
Import Enumerator.
Local Open Scope Z_scope.

Lemma mutual_multiples (a a' x x' : Z) :
  0 < a → 0 < a' → a = x * a' → a' = x' * a → x = 1 ∧ x' = 1.
Proof.
  intros Ha Ha' Hx Hx'.
  assert (0 < x) by nia. assert (0 < x') by nia.
  assert (x * x' = 1) as Hone.
  { apply (Z.mul_reg_r _ _ a); [lia|]. rewrite <- Z.mul_assoc, <- Hx'. lia. }
  nia.
Qed.

(** Two matrices in canonical form with the same row span are equal. *)
Lemma canonical_unique (M1 M2 : TransformationMatrix) :
  canonical M1 → canonical M2 →
  (∀ c1 c2, row_span M1 c1 c2 ↔ row_span M2 c1 c2) →
  M1 = M2.
Proof.
  destruct M1 as [a b c d], M2 as [a' b' c' d'].
  unfold canonical, row_span. cbn [m11 m12 m21 m22].
  intros (-> & Ha & Hb & Hbd) (-> & Ha' & Hb' & Hbd') Hspan.
  (* the first rows *)
  destruct (proj1 (Hspan a b)) as (x & y & Hx & Hy); [exists 1, 0; lia|].
  destruct (proj2 (Hspan a' b')) as (x' & y' & Hx' & Hy'); [exists 1, 0; lia|].
  assert (x = 1 ∧ x' = 1) as [-> ->] by (apply (mutual_multiples a a'); lia).
  assert (a = a') as <- by lia.
  (* the second rows *)
  destruct (proj1 (Hspan 0 d)) as (u & w & Hu & Hw); [exists 0, 1; lia|].
  destruct (proj2 (Hspan 0 d')) as (u' & w' & Hu' & Hw'); [exists 0, 1; lia|].
  assert (u = 0 ∧ u' = 0) as [-> ->] by nia.
  assert (w = 1 ∧ w' = 1) as [-> ->] by (apply (mutual_multiples d d'); lia).
  assert (d = d') as <- by lia.
  assert (y = 0) as -> by nia.
  f_equal; lia.
Qed.

(** The rows of [M] are in the row span of [M'], so the row span is. *)
Lemma row_span_included (M M' : TransformationMatrix) :
  row_span M' (m11 M) (m12 M) → row_span M' (m21 M) (m22 M) →
  ∀ c1 c2, row_span M c1 c2 → row_span M' c1 c2.
Proof.
  intros (x1 & y1 & H11 & H12) (x2 & y2 & H21 & H22) c1 c2 (x & y & -> & ->).
  exists (x * x1 + y * x2), (x * y1 + y * y2). rewrite H11, H12, H21, H22.
  split; ring.
Qed.

(** Every matrix of non-zero determinant has a canonical form: a matrix
    in canonical form with the same row span and, up to sign, the same
    determinant. *)
Lemma canonical_exists (M : TransformationMatrix) :
  det M ≠ 0 →
  ∃ M', canonical M' ∧ Z.abs (det M') = Z.abs (det M)
        ∧ ∀ c1 c2, row_span M c1 c2 ↔ row_span M' c1 c2.
Proof.
  destruct M as [a b c d]. unfold det. cbn [m11 m12 m21 m22]. intros Hdet.
  (* the gcd [g] of the first column, with its Bezout coefficients *)
  destruct (Z.gcd_bezout a c (Z.gcd a c) eq_refl) as (u & v & Huv).
  destruct (Z.gcd_divide_l a c) as [p Hp].
  destruct (Z.gcd_divide_r a c) as [r Hr].
  pose proof (Z.gcd_nonneg a c) as Hg0.
  set (g := Z.gcd a c) in *. clearbody g. subst a c.
  assert (g ≠ 0) as Hg by (intros ->; lia).
  assert (u * p + v * r = 1) as Hunit.
  { apply (Z.mul_reg_r _ _ g); [assumption | lia]. }
  (* the second diagonal entry, up to sign, and the entry above it *)
  assert (p * d - r * b ≠ 0) as HD.
  { intros Hz. apply Hdet.
    transitivity (g * (p * d - r * b)); [ring | rewrite Hz; ring]. }
  pose proof (Z.mod_pos_bound (u * b + v * d) (Z.abs (p * d - r * b))
                ltac:(lia)) as Hmod.
  pose proof (Z.div_mod (u * b + v * d) (Z.abs (p * d - r * b))
                ltac:(lia)) as Hdiv.
  remember ((u * b + v * d) / Z.abs (p * d - r * b)) as q eqn:Hq. clear Hq.
  remember ((u * b + v * d) mod Z.abs (p * d - r * b)) as m eqn:Hm. clear Hm.
  pose proof (f_equal (Z.mul b) Hunit) as Hb.
  pose proof (f_equal (Z.mul d) Hunit) as Hd.
  pose proof (f_equal (Z.mul g) Hunit) as Hgu.
  exists (Matrix g m 0 (Z.abs (p * d - r * b))).
  split; [|split].
  - unfold canonical. cbn [m11 m12 m21 m22]. lia.
  - unfold det. cbn [m11 m12 m21 m22].
    replace (p * g * d - b * (r * g)) with (g * (p * d - r * b)) by ring.
    rewrite Z.mul_0_r, Z.sub_0_r, !Z.abs_mul. now rewrite Z.abs_idemp.
  - intros c1 c2. split; apply row_span_included; unfold row_span;
      cbn [m11 m12 m21 m22];
      destruct (Z.abs_spec (p * d - r * b)) as [[_ Hs]|[_ Hs]];
      rewrite Hs in *.
    + exists p, (p * q - v). lia.
    + exists p, (p * q + v). lia.
    + exists r, (r * q + u). lia.
    + exists r, (r * q - u). lia.
    + exists (u + q * r), (v - q * p). lia.
    + exists (u - q * r), (v + q * p). lia.
    + exists (- r), p. lia.
    + exists r, (- p). lia.
Qed.
End canonical_forms.

Section enumeration.
Import Enumerator.
Local Open Scope Z_scope.

Lemma elem_of_entries (N_max z : Z) : z ∈ entries N_max ↔ - N_max ≤ z ≤ N_max.
Proof. unfold entries, search_radius. rewrite elem_of_seqZ. lia. Qed.

Lemma elem_of_candidates (N_max : Z) (M : TransformationMatrix) :
  M ∈ candidates N_max
  ↔ m11 M ∈ entries N_max ∧ m12 M ∈ entries N_max
    ∧ m21 M ∈ entries N_max ∧ m22 M ∈ entries N_max.
Proof.
  unfold candidates. split.
  - intros (a & (b & (c & (d & HM & Hd)%list_elem_of_bind & Hc)%list_elem_of_bind
             & Hb)%list_elem_of_bind & Ha)%list_elem_of_bind.
    apply list_elem_of_singleton in HM as ->. now cbn.
  - destruct M as [a b c d]. cbn [m11 m12 m21 m22]. intros (Ha & Hb & Hc & Hd).
    apply list_elem_of_bind. exists a. split; [|assumption].
    apply list_elem_of_bind. exists b. split; [|assumption].
    apply list_elem_of_bind. exists c. split; [|assumption].
    apply list_elem_of_bind. exists d. split; [|assumption].
    now apply list_elem_of_singleton.
Qed.

Lemma NoDup_candidates (N_max : Z) : NoDup (candidates N_max).
Proof.
  unfold candidates, entries.
  apply NoDup_bind; [| |apply NoDup_seqZ].
  { intros a a' M _ _
      (b & (c & (d & ->%list_elem_of_singleton & _)%list_elem_of_bind
            & _)%list_elem_of_bind & _)%list_elem_of_bind
      (b' & (c' & (d' & [=]%list_elem_of_singleton & _)%list_elem_of_bind
             & _)%list_elem_of_bind & _)%list_elem_of_bind.
    assumption. }
  intros a _. apply NoDup_bind; [| |apply NoDup_seqZ].
  { intros b b' M _ _
      (c & (d & ->%list_elem_of_singleton & _)%list_elem_of_bind
       & _)%list_elem_of_bind
      (c' & (d' & [=]%list_elem_of_singleton & _)%list_elem_of_bind
       & _)%list_elem_of_bind.
    assumption. }
  intros b _. apply NoDup_bind; [| |apply NoDup_seqZ].
  { intros c c' M _ _
      (d & ->%list_elem_of_singleton & _)%list_elem_of_bind
      (d' & [=]%list_elem_of_singleton & _)%list_elem_of_bind.
    assumption. }
  intros c _. apply NoDup_bind; [| |apply NoDup_seqZ].
  { intros d d' M _ _ ->%list_elem_of_singleton [=]%list_elem_of_singleton.
    assumption. }
  intros d _. apply NoDup_singleton.
Qed.

(** The entries of a canonical matrix in the determinant range are within
    the search radius. *)
Lemma canonical_within_radius (N_max : Z) (M : TransformationMatrix) :
  canonical M → in_determinant_range N_max M → M ∈ candidates N_max.
Proof.
  destruct M as [a b c d]. unfold canonical, in_determinant_range, det.
  cbn [m11 m12 m21 m22]. intros (-> & Ha & Hb & Hbd) [Hlo Hhi].
  rewrite Z.mul_0_r, Z.sub_0_r in Hlo, Hhi.
  assert (a ≤ a * d ∧ d ≤ a * d) as [Had Hda] by nia.
  apply elem_of_candidates. cbn [m11 m12 m21 m22].
  rewrite !elem_of_entries. lia.
Qed.

(** What the enumerator emits: the canonical matrices in the determinant
    range. *)
Lemma elem_of_enumerate (N_max : Z) (M : TransformationMatrix) :
  M ∈ enumerate N_max ↔ canonical M ∧ in_determinant_range N_max M.
Proof.
  unfold enumerate. cbv zeta. rewrite list_elem_of_bind. split.
  - intros (d & HM & _). rewrite !list_elem_of_filter in HM. tauto.
  - intros [Hcanon Hrange]. exists (Z.abs (det M)). split.
    + rewrite !list_elem_of_filter.
      auto using canonical_within_radius.
    + apply elem_of_seqZ. unfold in_determinant_range in Hrange. lia.
Qed.

Lemma NoDup_enumerate (N_max : Z) : NoDup (enumerate N_max).
Proof.
  unfold enumerate. cbv zeta. apply NoDup_bind; [| |apply NoDup_seqZ].
  - intros d d' M _ _ Hd Hd'. rewrite list_elem_of_filter in Hd, Hd'.
    destruct Hd as [<- _], Hd' as [<- _]. reflexivity.
  - intros d _. do 3 apply NoDup_filter. apply NoDup_candidates.
Qed.

(** C8, as stated, fails: the enumerator does not emit every matrix with
    [1 ≤ |det M| ≤ N_max].  For [N_max = 1] it emits the identity alone;
    the matrix with rows (1, 1) and (0, 1) has determinant 1 and is not
    emitted, and it could not be: it generates the sublattice the identity
    generates. *)
Lemma enumerate_not_all_matrices_counterexample :
  enumerate 1 = [Matrix 1 0 0 1]
  ∧ Z.abs (det (Matrix 1 1 0 1)) = 1
  ∧ (Matrix 1 1 0 1 ∉ enumerate 1)
  ∧ same_sublattice {| a1 := (1, 0)%R; a2 := (0, 1)%R |}
      (Matrix 1 1 0 1) (Matrix 1 0 0 1).
Proof.
  split; [vm_compute; reflexivity|]. split; [reflexivity|]. split.
  - rewrite elem_of_enumerate. unfold canonical. cbn [m11 m12 m21 m22]. lia.
  - apply same_sublattice_row_span.
    + unfold nondegenerate. cbn. lra.
    + intros c1 c2. unfold row_span. cbn [m11 m12 m21 m22]. split.
      * intros (x & y & -> & ->). exists x, (x + y). lia.
      * intros (x & y & -> & ->). exists x, (y - x). lia.
Qed.

(** C8 (amended): for a non-degenerate lattice and a maximum supercell
    multiple [N_max], the enumerator emits exactly one matrix for each
    sublattice that a matrix with [1 ≤ |det M| ≤ N_max] generates: every
    matrix it emits has [1 ≤ |det M| ≤ N_max]; no two matrices it emits, at
    different places of the sequence, generate the same sublattice; and
    every matrix with [1 ≤ |det M| ≤ N_max] generates the sublattice of an
    emitted matrix. *)
Theorem enumerate_determinant_bound_and_distinct_sublattices
    (L : Lattice) (N_max : Z) :
  nondegenerate L →
  (∀ M, M ∈ enumerate N_max → 1 ≤ Z.abs (det M) ≤ N_max)
  ∧ (∀ (i j : nat) M1 M2,
       enumerate N_max !! i = Some M1 → enumerate N_max !! j = Some M2 →
       same_sublattice L M1 M2 → i = j)
  ∧ (∀ M, 1 ≤ Z.abs (det M) ≤ N_max →
       ∃ M', M' ∈ enumerate N_max ∧ same_sublattice L M M').
Proof.
  intros HL. split; [|split].
  - intros M HM. now apply elem_of_enumerate in HM.
  - intros i j M1 M2 Hi Hj Hsame.
    assert (M1 = M2) as <-.
    { apply list_elem_of_lookup_2, elem_of_enumerate in Hi as [Hc1 _].
      apply list_elem_of_lookup_2, elem_of_enumerate in Hj as [Hc2 _].
      apply canonical_unique; [assumption | assumption |].
      now apply (same_sublattice_row_span L). }
    exact (NoDup_lookup _ _ _ _ (NoDup_enumerate N_max) Hi Hj).
  - intros M HM.
    destruct (canonical_exists M) as (M' & Hcanon & Hdet & Hspan); [lia|].
    exists M'. split.
    + apply elem_of_enumerate. split; [assumption|].
      unfold in_determinant_range. lia.
    + now apply same_sublattice_row_span.
Qed.

Lemma enumerate_determinant_bound_and_distinct_sublattices_witness :
  let L := {| a1 := (1, 0)%R; a2 := (0, 1)%R |} in
  (∀ M, M ∈ enumerate 2 → 1 ≤ Z.abs (det M) ≤ 2)
  ∧ (∀ (i j : nat) M1 M2,
       enumerate 2 !! i = Some M1 → enumerate 2 !! j = Some M2 →
       same_sublattice L M1 M2 → i = j)
  ∧ (∀ M, 1 ≤ Z.abs (det M) ≤ 2 →
       ∃ M', M' ∈ enumerate 2 ∧ same_sublattice L M M').
Proof.
  intros L.
  apply (enumerate_determinant_bound_and_distinct_sublattices L 2).
  unfold nondegenerate, L. cbn. lra.
Defined.

Example enumerate_2 :
  enumerate 2 = [Matrix 1 0 0 1; Matrix 1 0 0 2; Matrix 1 1 0 2; Matrix 2 0 0 1].
Proof. vm_compute. reflexivity. Qed.
End enumeration.

(** * Further properties of the kernel *)

(** ** The sign of [get_gcd] *)

Section get_gcd_more.
Local Open Scope Z_scope.

Lemma get_gcd_scales (k : Z) (n : nat) :
  ∀ a b, Z.abs_nat a = n → get_gcd (k * a) (k * b) = k * get_gcd a b.
Proof.
  induction n as [n IH] using lt_wf_ind. intros a b Hn.
  destruct (Z.eq_dec k 0) as [->|Hk].
  { rewrite !Z.mul_0_l. apply get_gcd_zero. }
  destruct (Z.eq_dec a 0) as [->|Ha].
  { now rewrite Z.mul_0_r, !get_gcd_zero. }
  rewrite (get_gcd_step (k * a)) by nia.
  rewrite (get_gcd_step a) by assumption.
  rewrite Z.mul_rem_distr_l by assumption.
  pose proof (Z.rem_bound_abs b a Ha).
  apply (IH (Z.abs_nat (Z.rem b a))); [lia | reflexivity].
Qed.

(** X1: [get_gcd] is homogeneous, signs included: scaling both arguments
    by [k] scales the result by [k], so negating both arguments negates the
    result, and on two non-positive arguments the result is minus their
    greatest common divisor.  When the first argument divides the second,
    the result is the first argument itself. *)
Theorem get_gcd_homogeneous (k a b : Z) :
  get_gcd (k * a) (k * b) = k * get_gcd a b
  ∧ get_gcd (- a) (- b) = - get_gcd a b
  ∧ (a ≤ 0 → b ≤ 0 → get_gcd a b = - Z.gcd a b)
  ∧ ((a | b) → get_gcd a b = a).
Proof.
  assert (Hopp : ∀ x y, get_gcd (- x) (- y) = - get_gcd x y).
  { intros x y.
    replace (- x) with (-1 * x) by lia. replace (- y) with (-1 * y) by lia.
    rewrite (get_gcd_scales (-1) _ x y eq_refl). lia. }
  split; [now apply (get_gcd_scales k (Z.abs_nat a))|].
  split; [apply Hopp|]. split.
  - intros Ha Hb.
    pose proof (Hopp a b) as Heq.
    pose proof (get_gcd_nonneg (- a) (- b) ltac:(lia) ltac:(lia)) as Hpos.
    pose proof (get_gcd_abs a b) as Habs. lia.
  - intros Hdiv. destruct (Z.eq_dec a 0) as [->|Ha].
    + apply Z.divide_0_l in Hdiv. subst b. apply get_gcd_zero.
    + rewrite get_gcd_step by assumption.
      apply Z.rem_divide in Hdiv; [|assumption].
      rewrite Hdiv. apply get_gcd_zero.
Qed.

End get_gcd_more.

(** ** The gcd of a sequence, continued *)

Section find_gcd_more.
Local Open Scope Z_scope.








End find_gcd_more.
(** ** Products and rotations in the plane *)

Section plane.
Local Open Scope R_scope.

Lemma at_least_2x2_cons {T} (b00 b01 b10 b11 : T) (r0 r1 : list T)
    (rest : list (list T)) :
  at_least_2x2 ((b00 :: b01 :: r0) :: (b10 :: b11 :: r1) :: rest).
Proof.
  split; [simpl; lia|].
  apply Forall_cons; split; [simpl; lia|].
  apply Forall_cons; split; [simpl; lia|]. apply Forall_nil_2.
Qed.

Lemma at_least_2x2_inv {T} (basis : list (list T)) :
  at_least_2x2 basis →
  ∃ b00 b01 r0 b10 b11 r1 rest,
    basis = (b00 :: b01 :: r0) :: (b10 :: b11 :: r1) :: rest.
Proof.
  intros [Hrows Hcols].
  destruct basis as [|row0 [|row1 rest]]; simpl in Hrows; try lia.
  simpl in Hcols.
  apply Forall_cons in Hcols as [H0 Hcols].
  apply Forall_cons in Hcols as [H1 _].
  destruct row0 as [|b00 [|b01 r0]]; simpl in H0; try lia.
  destruct row1 as [|b10 [|b11 r1]]; simpl in H1; try lia.
  eauto 10.
Qed.

(** X4: [basis_2x2_dot_2d_vector] returns exactly when the basis has two
    rows of at least two entries and the vector at least two components;
    otherwise it reads out of bounds, and it has no other failure.  The
    result is the product of the leading 2x2 block with the first two
    components, whatever follows them. *)
Theorem basis_2x2_dot_2d_vector_in_bounds {T1 T2} `{Scalar T1, Promote T2 T1}
    (basis : list (list T1)) (vec : list T2) :
  ((∃ r, basis_2x2_dot_2d_vector basis vec = Ret r)
     ↔ at_least_2x2 basis ∧ (2 ≤ length vec)%nat)
  ∧ (∀ e, basis_2x2_dot_2d_vector basis vec = Fault e → e = OutOfBounds)
  ∧ (∀ b00 b01 r0 b10 b11 r1 rest v0 v1 vrest,
       basis = (b00 :: b01 :: r0) :: (b10 :: b11 :: r1) :: rest →
       vec = v0 :: v1 :: vrest →
       basis_2x2_dot_2d_vector basis vec
       = Ret [s_add (s_mul b00 (promote v0)) (s_mul b01 (promote v1));
              s_add (s_mul b10 (promote v0)) (s_mul b11 (promote v1))]).
Proof.
  split; [|split].
  - split.
    + intros [r Hr]. revert Hr.
      destruct vec as [|v0 [|v1 vrest]];
        destruct basis as [|[|b00 [|b01 r0]] [|[|b10 [|b11 r1]] rest]];
        cbn; try discriminate; intros _;
        (split; [apply at_least_2x2_cons | simpl; lia]).
    + intros [(b00 & b01 & r0 & b10 & b11 & r1 & rest & ->)%at_least_2x2_inv Hvec].
      destruct vec as [|v0 [|v1 vrest]]; simpl in Hvec; try lia.
      now eexists.
  - intros e.
    destruct vec as [|v0 [|v1 vrest]];
      destruct basis as [|[|b00 [|b01 r0]] [|[|b10 [|b11 r1]] rest]];
      cbn; congruence.
  - intros * -> ->. reflexivity.
Qed.

Lemma rotate_2d_vector_cons {T} `{Scalar T} (v0 v1 : T) (rest : list T)
    (theta : R) :
  rotate_2d_vector (v0 :: v1 :: rest) theta =
  Ret [cos (theta * 2 * PI / 180) * to_double v0
       + - sin (theta * 2 * PI / 180) * to_double v1;
       sin (theta * 2 * PI / 180) * to_double v0
       + cos (theta * 2 * PI / 180) * to_double v1].
Proof. reflexivity. Qed.


(** X5: [rotate_2d_vector] returns exactly when the vector has at least two
    components, and otherwise reads out of bounds.  The result always has
    two components and depends on the first two components only. *)
Theorem rotate_2d_vector_in_bounds {T} `{Scalar T} (vec : list T) (theta : R) :
  ((∃ r, rotate_2d_vector vec theta = Ret r) ↔ (2 ≤ length vec)%nat)
  ∧ (∀ e, rotate_2d_vector vec theta = Fault e → e = OutOfBounds)
  ∧ (∀ r, rotate_2d_vector vec theta = Ret r → length r = 2%nat)
  ∧ rotate_2d_vector vec theta = rotate_2d_vector (take 2 vec) theta.
Proof.
  destruct vec as [|v0 [|v1 rest]].
  - split; [|split; [|split]]; try (cbn; congruence).
    split; [intros [r Hr]; discriminate | simpl; lia].
  - split; [|split; [|split]]; try (cbn; congruence).
    split; [intros [r Hr]; discriminate | simpl; lia].
  - rewrite rotate_2d_vector_cons.
    split; [|split; [|split]]; try congruence.
    + split; [simpl; lia | eauto].
    + now intros r [= <-].
    + reflexivity.
Qed.

(** X6: rotating by [a] and then by [b] is rotating by [a + b], faults
    included (doubles read as real numbers). *)
Theorem rotate_2d_vector_composes {T} `{Scalar T} (vec : list T) (a b : R) :
  rotate_2d_vector vec a ≫= (λ w, rotate_2d_vector w b)
  = rotate_2d_vector vec (a + b).
Proof.
  destruct vec as [|v0 [|v1 rest]]; [reflexivity | reflexivity |].
  rewrite !rotate_2d_vector_cons. rewrite bind_Ret, rotate_2d_vector_cons.
  replace ((a + b) * 2 * PI / 180) with (a * 2 * PI / 180 + b * 2 * PI / 180)
    by field.
  rewrite cos_plus, sin_plus. simpl to_double.
  do 2 f_equal; [ring | f_equal; ring].
Qed.

(** X7: [rotate_2d_vector] has period 180 in [theta]: the angle handed to
    [cos] and [sin] is [theta * 2 * M_PI / 180], which 180 more degrees
    advance by a full turn. *)
Theorem rotate_2d_vector_half_turn_period {T} `{Scalar T}
    (vec : list T) (theta : R) :
  rotate_2d_vector vec (theta + 180) = rotate_2d_vector vec theta.
Proof.
  destruct vec as [|v0 [|v1 rest]]; [reflexivity | reflexivity |].
  rewrite !rotate_2d_vector_cons.
  replace ((theta + 180) * 2 * PI / 180)
    with (theta * 2 * PI / 180 + 2 * INR 1 * PI) by (simpl INR; field).
  now rewrite cos_period, sin_period.
Qed.








End plane.

(** ** 3x3 matrices, continued *)

Section matrices_more.
Local Open Scope R_scope.

Lemma vec_at_fault {T} (v : list T) (i : nat) (e : fault) :
  vec_at v i = Fault e → e = OutOfBounds.
Proof. unfold vec_at. destruct (v !! i); congruence. Qed.

Lemma mat_at_fault {T} (m : list (list T)) (i j : nat) (e : fault) :
  mat_at m i j = Fault e → e = OutOfBounds.
Proof.
  unfold mat_at, vec_at. destruct (m !! i) as [row|]; cbn; [|congruence].
  destruct (row !! j); congruence.
Qed.

Lemma at_least_3x3_inv {T} (mat : list (list T)) :
  at_least_3x3 mat →
  ∃ a b c r0 d e f r1 g h i r2 rest,
    mat = (a :: b :: c :: r0) :: (d :: e :: f :: r1) :: (g :: h :: i :: r2) :: rest.
Proof.
  intros [Hrows Hcols].
  destruct mat as [|row0 [|row1 [|row2 rest]]]; simpl in Hrows; try lia.
  simpl in Hcols.
  apply Forall_cons in Hcols as [H0 Hcols].
  apply Forall_cons in Hcols as [H1 Hcols].
  apply Forall_cons in Hcols as [H2 _].
  destruct row0 as [|a [|b [|c r0]]]; simpl in H0; try lia.
  destruct row1 as [|d [|e [|f r1]]]; simpl in H1; try lia.
  destruct row2 as [|g [|h [|i r2]]]; simpl in H2; try lia.
  eauto 20.
Qed.

Lemma at_least_3x3_cons {T} (a b c d e f g h i : T) (r0 r1 r2 : list T)
    (rest : list (list T)) :
  at_least_3x3
    ((a :: b :: c :: r0) :: (d :: e :: f :: r1) :: (g :: h :: i :: r2) :: rest).
Proof.
  split; [simpl; lia|].
  apply Forall_cons; split; [simpl; lia|].
  apply Forall_cons; split; [simpl; lia|].
  apply Forall_cons; split; [simpl; lia|]. apply Forall_nil_2.
Qed.

Ltac read_entries :=
  repeat match goal with
    | |- context [mat_at ?m ?i ?j] =>
        let E := fresh "Hread" in
        destruct (mat_at m i j) eqn:E; cbn -[mat_at];
        [|apply mat_at_fault in E; subst]
    end.

(** The determinant on a matrix with a leading 3x3 block. *)
Lemma get_3x3_matrix_determinant_cons {T} `{Scalar T}
    (a b c d e f g h i : T) (r0 r1 r2 : list T) (rest : list (list T)) :
  get_3x3_matrix_determinant
    ((a :: b :: c :: r0) :: (d :: e :: f :: r1) :: (g :: h :: i :: r2) :: rest)
  = Ret (cofactor_determinant
           (leading_3x3
              ((a :: b :: c :: r0) :: (d :: e :: f :: r1)
               :: (g :: h :: i :: r2) :: rest))).
Proof.
  unfold get_3x3_matrix_determinant. cbn. f_equal.
  repeat (rewrite to_double_add || rewrite to_double_sub
          || rewrite to_double_mul).
  unfold cofactor_determinant, cofactor, minor, entry. cbn. ring.
Qed.

(** Without a leading 3x3 block the determinant reads out of bounds. *)
Lemma get_3x3_matrix_determinant_out_of_bounds {T} `{Scalar T}
    (mat : list (list T)) :
  ¬ at_least_3x3 mat → get_3x3_matrix_determinant mat = Fault OutOfBounds.
Proof.
  intros Hnot. unfold get_3x3_matrix_determinant. cbn -[mat_at].
  read_entries; try reflexivity.
  exfalso. apply Hnot, at_least_3x3_reads. intros i j Hi Hj.
  destruct i as [|[|[|i]]]; [| | |lia];
    (destruct j as [|[|[|j]]]; [| | |lia]); eauto.
Qed.


Lemma double_div_by_nonzero x y : y ≠ 0 → double_div x y = Ret (x / y).
Proof.
  intros Hy. unfold double_div.
  destruct (Req_dec_T y 0); [contradiction | reflexivity].
Qed.

Lemma double_div_by_zero x : double_div x 0 = Fault DivisionByZero.
Proof.
  unfold double_div. destruct (Req_dec_T 0 0); [reflexivity | contradiction].
Qed.

(** The inverse on a matrix with a leading 3x3 block [M]: the adjugate of
    [M] divided by its determinant. *)
Lemma invert_3x3_matrix_cons {T} `{Scalar T}
    (a b c d e f g h i : T) (r0 r1 r2 : list T) (rest : list (list T)) :
  let mat :=
    (a :: b :: c :: r0) :: (d :: e :: f :: r1) :: (g :: h :: i :: r2) :: rest in
  (cofactor_determinant (leading_3x3 mat) ≠ 0 →
     invert_3x3_matrix mat
     = Ret (mat_div (adjugate (leading_3x3 mat))
                    (cofactor_determinant (leading_3x3 mat))))
  ∧ (cofactor_determinant (leading_3x3 mat) = 0 →
       invert_3x3_matrix mat = Fault DivisionByZero).
Proof.
  intros mat. subst mat. split; intros Hdet; unfold invert_3x3_matrix;
    rewrite get_3x3_matrix_determinant_cons, bind_Ret.
  - revert Hdet. generalize (cofactor_determinant (leading_3x3
      ((a :: b :: c :: r0) :: (d :: e :: f :: r1) :: (g :: h :: i :: r2) :: rest))).
    intros D HD. cbn. rewrite !double_div_by_nonzero by assumption.
    unfold mat_set. cbn.
    repeat (rewrite to_double_add || rewrite to_double_sub
            || rewrite to_double_mul).
    unfold mat_div, adjugate, tabulate_3x3, cofactor, minor, entry. cbn.
    repeat (f_equal; try (field; assumption)).
  - rewrite Hdet. cbn. rewrite !double_div_by_zero. reflexivity.
Qed.


(** What a returned inverse is. *)
Lemma invert_3x3_matrix_returns {T} `{Scalar T} (mat : list (list T))
    (minv : list (list R)) :
  invert_3x3_matrix mat = Ret minv →
  at_least_3x3 mat ∧ cofactor_determinant (leading_3x3 mat) ≠ 0
  ∧ minv = mat_div (adjugate (leading_3x3 mat))
                   (cofactor_determinant (leading_3x3 mat)).
Proof.
  intros Hret. destruct (decide (at_least_3x3 mat)) as [Hmat|Hnot].
  - pose proof Hmat as
      (a & b & c & r0 & d & e & f & r1 & g & h & i & r2 & rest & ->)
      %at_least_3x3_inv.
    destruct (invert_3x3_matrix_cons a b c d e f g h i r0 r1 r2 rest)
      as [Hinv Hzero]. cbv zeta in Hinv, Hzero.
    destruct (Req_dec_T (cofactor_determinant (leading_3x3
      ((a :: b :: c :: r0) :: (d :: e :: f :: r1) :: (g :: h :: i :: r2) :: rest))) 0)
      as [Hdet|Hdet].
    + rewrite (Hzero Hdet) in Hret. discriminate.
    + rewrite (Hinv Hdet) in Hret. injection Hret as <-. auto.
  - unfold invert_3x3_matrix in Hret.
    rewrite get_3x3_matrix_determinant_out_of_bounds in Hret by assumption.
    discriminate.
Qed.



(** An entry of an expression in the inverse: a quotient by the
    determinant [D] that is [e / D] once the denominators are cleared,
    where [e] is [D] written out. *)
Ltac by_determinant Hnz Hdef num :=
  match type of Hdef with
  | ?D = ?e =>
      transitivity (num e D);
      [ field; exact Hnz | rewrite <- Hdef; field; exact Hnz ]
  end.

Section inverse_of_a_real_matrix.
Variables A B C D E F G H I : R.
Let M := [[A; B; C]; [D; E; F]; [G; H; I]].
Hypothesis Hdet : cofactor_determinant M ≠ 0.


End inverse_of_a_real_matrix.





(** X15: a row vector of three doubles multiplied by a matrix and then by
    the inverse [invert_3x3_matrix] returns for it, in either order, is the
    vector again (doubles read as real numbers). *)
Theorem vec1x3_dot_3x3_matrix_round_trip (a : list R) (mat minv : list (list R)) :
  length a = 3%nat →
  invert_3x3_matrix mat = Ret minv →
  (vec1x3_dot_3x3_matrix a mat ≫= λ b, vec1x3_dot_3x3_matrix b minv) = Ret a
  ∧ (vec1x3_dot_3x3_matrix a minv ≫= λ b, vec1x3_dot_3x3_matrix b mat) = Ret a.
Proof.
  intros Ha (Hmat & Hdet & ->)%invert_3x3_matrix_returns.
  destruct a as [|x [|y [|z [|w a']]]]; try discriminate.
  destruct (at_least_3x3_inv mat Hmat)
    as (A & B & C & r0 & D & E & F & r1 & G & H & I & r2 & rest & ->).
  change (leading_3x3
            ((A :: B :: C :: r0) :: (D :: E :: F :: r1) :: (G :: H :: I :: r2)
             :: rest))
    with [[A; B; C]; [D; E; F]; [G; H; I]] in *.
  remember (cofactor_determinant [[A; B; C]; [D; E; F]; [G; H; I]]) as Dt eqn:HD.
  unfold cofactor_determinant, cofactor, minor, entry in HD. cbn in HD.
  unfold mat_div, adjugate, tabulate_3x3, cofactor, minor, entry. cbn.
  split; do 2 f_equal; [| f_equal | | f_equal].
  - by_determinant Hdet HD (λ e Dt : R, (e * x) / Dt).
  - by_determinant Hdet HD (λ e Dt : R, (e * y) / Dt).
  - f_equal. by_determinant Hdet HD (λ e Dt : R, (e * z) / Dt).
  - by_determinant Hdet HD (λ e Dt : R, (e * x) / Dt).
  - by_determinant Hdet HD (λ e Dt : R, (e * y) / Dt).
  - f_equal. by_determinant Hdet HD (λ e Dt : R, (e * z) / Dt).
Qed.

Lemma vec1x3_dot_3x3_matrix_round_trip_witness :
  ∃ minv : list (list R),
    invert_3x3_matrix [[2; 0; 0]; [0; 1; 0]; [0; 0; 1]] = Ret minv
    ∧ (vec1x3_dot_3x3_matrix [1; 2; 3] [[2; 0; 0]; [0; 1; 0]; [0; 0; 1]]
         ≫= λ b, vec1x3_dot_3x3_matrix b minv) = Ret [1; 2; 3]
    ∧ (vec1x3_dot_3x3_matrix [1; 2; 3] minv
         ≫= λ b, vec1x3_dot_3x3_matrix b [[2; 0; 0]; [0; 1; 0]; [0; 0; 1]])
      = Ret [1; 2; 3].
Proof.
  destruct (invert_3x3_matrix_cons (T:=R) 2 0 0 0 1 0 0 0 1 [] [] [] [])
    as [Hinv _]. cbv zeta in Hinv.
  assert (Hnz : cofactor_determinant
                  (leading_3x3 [[2; 0; 0]; [0; 1; 0]; [0; 0; 1]]) ≠ 0)
    by (unfold cofactor_determinant, cofactor, minor, entry; cbn; lra).
  eexists. split; [exact (Hinv Hnz)|].
  exact (vec1x3_dot_3x3_matrix_round_trip [1; 2; 3] _ _ eq_refl (Hinv Hnz)).
Defined.

End matrices_more.

Section products_of_matrices.
Local Open Scope R_scope.

(** X16: multiplying a row vector of three doubles by [M] and then by [N]
    is multiplying it by the product of the leading 3x3 blocks of [M] and
    [N]; multiplying it by the identity matrix returns it. *)
Theorem vec1x3_dot_3x3_matrix_composes (a : list R) (M N : list (list R)) :
  length a = 3%nat → at_least_3x3 M → at_least_3x3 N →
  (vec1x3_dot_3x3_matrix a M ≫= λ b, vec1x3_dot_3x3_matrix b N)
  = vec1x3_dot_3x3_matrix a (mat_mul (leading_3x3 M) (leading_3x3 N))
  ∧ vec1x3_dot_3x3_matrix a identity_3x3 = Ret a.
Proof.
  intros Ha HM HN.
  destruct a as [|x [|y [|z [|w a']]]]; try discriminate.
  destruct (at_least_3x3_inv M HM)
    as (A & B & C & r0 & D & E & F & r1 & G & H & I & r2 & rest & ->).
  destruct (at_least_3x3_inv N HN)
    as (A' & B' & C' & r0' & D' & E' & F' & r1' & G' & H' & I' & r2' & rest' & ->).
  split.
  - unfold mat_mul, leading_3x3, tabulate_3x3, entry. cbn.
    apply f_equal. repeat (apply (f_equal2 cons); [ring|]). reflexivity.
  - rewrite identity_3x3_eq. cbn.
    apply f_equal. repeat (apply (f_equal2 cons); [ring|]). reflexivity.
Qed.

Lemma vec1x3_dot_3x3_matrix_composes_witness :
  (vec1x3_dot_3x3_matrix [1; 2; 3] [[2; 0; 0]; [0; 1; 0]; [0; 0; 1]]
     ≫= λ b, vec1x3_dot_3x3_matrix b [[0; 1; 0]; [1; 0; 0]; [0; 0; 1]])
  = vec1x3_dot_3x3_matrix [1; 2; 3]
      (mat_mul (leading_3x3 [[2; 0; 0]; [0; 1; 0]; [0; 0; 1]])
               (leading_3x3 [[0; 1; 0]; [1; 0; 0]; [0; 0; 1]]))
  ∧ vec1x3_dot_3x3_matrix [1; 2; 3] identity_3x3 = Ret [1; 2; 3].
Proof.
  apply (vec1x3_dot_3x3_matrix_composes [1; 2; 3]
           [[2; 0; 0]; [0; 1; 0]; [0; 0; 1]] [[0; 1; 0]; [1; 0; 0]; [0; 0; 1]]).
  - reflexivity.
  - apply (at_least_3x3_cons 2 0 0 0 1 0 0 0 1 [] [] [] []).
  - apply (at_least_3x3_cons 0 1 0 1 0 0 0 0 1 [] [] [] []).
Defined.

End products_of_matrices.

(** ** Printing of a matrix *)

Section printing.
Context {T : Type} (show : T → list ascii).

Lemma print_row_loop (vec : list (list T)) (i : nat) (row : list T)
    (count j : nat) (cout : list ascii) :
  vec !! i = Some row →
  j + count = length row →
  for_loop count j (λ j cout,
    row ← vec_at vec i;
    x ← vec_at row j;
    mret (cout ++ show x ++ [space])) cout
  = Ret (cout ++ (x ← drop j row; show x ++ [space])).
Proof.
  intros Hrow. set (body := λ (j : nat) (cout : list ascii), _).
  revert j cout. induction count as [|count IH]; intros j cout Hlen.
  - rewrite drop_ge by lia. cbn. now rewrite app_nil_r.
  - destruct (lookup_lt_is_Some_2 row j) as [x Hx]; [lia|].
    assert (Hstep : body j cout = Ret (cout ++ show x ++ [space])).
    { unfold body. rewrite (vec_at_lookup _ _ _ Hrow), bind_Ret.
      now rewrite (vec_at_lookup _ _ _ Hx), bind_Ret. }
    cbn [for_loop]. rewrite Hstep, bind_Ret.
    rewrite IH by lia. rewrite (drop_S _ _ _ Hx). cbn.
    now rewrite <- !app_assoc.
Qed.

Lemma print_rows_loop (vec : list (list T)) (count i : nat) (cout : list ascii) :
  i + count = length vec →
  for_loop count i (λ i cout,
    row ← vec_at vec i;
    cout ← for_loop (length row) 0 (λ j cout,
      row ← vec_at vec i;
      x ← vec_at row j;
      mret (cout ++ show x ++ [space])) cout;
    mret (cout ++ [newline])) cout
  = Ret (cout ++ rendered show (drop i vec)).
Proof.
  set (body := λ (i : nat) (cout : list ascii), _).
  revert i cout. induction count as [|count IH]; intros i cout Hlen.
  - rewrite drop_ge by lia. cbn. now rewrite app_nil_r.
  - destruct (lookup_lt_is_Some_2 vec i) as [row Hrow]; [lia|].
    assert (Hstep : body i cout
                    = Ret ((cout ++ (x ← row; show x ++ [space])) ++ [newline])).
    { unfold body. rewrite (vec_at_lookup vec i row Hrow) at 1. rewrite bind_Ret.
      rewrite (print_row_loop vec i row (length row) 0 cout Hrow eq_refl).
      now rewrite drop_0, bind_Ret. }
    cbn [for_loop]. rewrite Hstep, bind_Ret.
    rewrite IH by lia. rewrite (drop_S _ _ _ Hrow).
    unfold rendered. cbn. now rewrite <- !app_assoc.
Qed.

Lemma rendered_app (v1 v2 : list (list T)) :
  rendered show (v1 ++ v2) = rendered show v1 ++ rendered show v2.
Proof. unfold rendered. apply bind_app. Qed.

(** X17: [print_2d_vector] has no failing access, on ragged and empty
    matrices too: it appends to the stream, row after row, each entry
    followed by a space and each row by a newline, and leaves what was
    written before in place.  Printing the rows [v1] and then the rows [v2]
    writes what printing [v1 ++ v2] writes. *)
Theorem print_2d_vector_writes (vec : list (list T)) (cout : list ascii) :
  print_2d_vector show vec cout = Ret (cout ++ rendered show vec)
  ∧ (∀ v1 v2, vec = v1 ++ v2 →
       print_2d_vector show vec cout
       = print_2d_vector show v1 cout ≫= print_2d_vector show v2).
Proof.
  assert (Hprint : ∀ v c, print_2d_vector show v c = Ret (c ++ rendered show v)).
  { intros v c. unfold print_2d_vector.
    now rewrite (print_rows_loop v (length v) 0 c eq_refl), drop_0. }
  split; [apply Hprint|].
  intros v1 v2 ->. rewrite !Hprint, bind_Ret, Hprint, rendered_app.
  now rewrite app_assoc.
Qed.

Lemma rendered_cons (row : list T) (vec : list (list T)) :
  rendered show (row :: vec)
  = (x ← row; show x ++ [space]) ++ newline :: rendered show vec.
Proof. unfold rendered. cbn. now rewrite <- app_assoc. Qed.

Lemma no_newline_in_cells (row : list T) :
  (∀ x, newline ∉ show x) →
  filter (λ c, c = newline) (x ← row; show x ++ [space]) = [].
Proof.
  intros Hshow. induction row as [|x row IH]; [reflexivity|]. cbn.
  rewrite !filter_app, IH, app_nil_r.
  rewrite (filter_cons_False _ space) by discriminate. cbn. rewrite app_nil_r.
  specialize (Hshow x). induction (show x) as [|c l IHl]; [reflexivity|].
  rewrite filter_cons_False; [apply IHl|]; set_solver.
Qed.

(** X18: when no entry prints a newline, [print_2d_vector] writes exactly one
    newline per row of the matrix, empty rows included. *)
Theorem print_2d_vector_one_line_per_row (vec : list (list T)) :
  (∀ x, newline ∉ show x) →
  ∃ out, print_2d_vector show vec [] = Ret out
    ∧ length (filter (λ c, c = newline) out) = length vec.
Proof.
  intros Hshow. exists (rendered show vec). split.
  - unfold print_2d_vector.
    now rewrite (print_rows_loop vec (length vec) 0 [] eq_refl), drop_0.
  - induction vec as [|row vec IH]; [reflexivity|].
    rewrite rendered_cons, filter_app, no_newline_in_cells by assumption.
    rewrite app_nil_l, filter_cons_True by reflexivity.
    cbn [length]. now rewrite IH.
Qed.
End printing.

Lemma print_2d_vector_one_line_per_row_witness :
  ∃ out, print_2d_vector (λ _ : Z, ["7"%char]) [[1%Z; 2%Z]; []; [3%Z]] [] = Ret out
    ∧ length (filter (λ c, c = newline) out) = 3%nat.
Proof.
  apply (print_2d_vector_one_line_per_row (λ _ : Z, ["7"%char])
           [[1%Z; 2%Z]; []; [3%Z]]).
  intros _ Hin. apply list_elem_of_singleton in Hin. discriminate.
Defined.
